(** * The custom image host of multipass: manifest building and the manifest cache

    A shallow embedding of [src/daemon/custom_image_host.cpp]: the static
    catalog, the metadata fetcher ([base_image_info_for]), the manifest
    builder ([full_image_info_for], [map_aliases_to_vm_info_for]) and the
    query layer of [CustomVMImageHost] over its mutex-guarded cache.

    Conventions.
    - A [QString] / [std::string] is a [string]; a character is an 8-bit
      code unit.  The distinction Qt makes between a null and an empty
      [QString] is not represented.
    - A C++ exception is a value of [exn]; a computation that may throw
      returns an [outcome].
    - Member functions of the host run in the monad [M]: they read the
      immutable members of the object and thread the mutable ones. *)

From Stdlib Require Import Ascii String ZArith Lia.
From stdpp Require Import base decidable option list sorting strings gmap fin_maps.

Local Open Scope Z_scope.
Local Open Scope nat_scope.

(* ===================================================================== *)
(** ** Qt strings *)
(* ===================================================================== *)

Module QString.

(** [QChar::isSpace] on code units below 256: U+0009..U+000D, U+0020,
    U+0085 and U+00A0. *)
Definition isSpace (c : ascii) : bool :=
  let n := nat_of_ascii c in
  (n =? 32) || ((9 <=? n) && (n <=? 13)) || (n =? 133) || (n =? 160).

Fixpoint dropSpaces (s : string) : string :=
  match s with
  | EmptyString => EmptyString
  | String c s' => if isSpace c then dropSpaces s' else s
  end.

(** [QString::trimmed]: whitespace removed from the start and the end. *)
Definition trimmed (s : string) : string :=
  String.rev (dropSpaces (String.rev (dropSpaces s))).

Fixpoint startsWith (s t : string) : bool :=
  match t, s with
  | EmptyString, _ => true
  | String _ _, EmptyString => false
  | String b t', String a s' => if Ascii.eqb a b then startsWith s' t' else false
  end.

(** [QString::endsWith], case sensitive. *)
Definition endsWith (s t : string) : bool :=
  startsWith (String.rev s) (String.rev t).

(** [split(sep)] with the default [KeepEmptyParts]: the pieces between the
    occurrences of [sep]; an empty string has the one piece [""]. *)
Fixpoint split (sep : ascii) (s : string) : list string :=
  match s with
  | EmptyString => [EmptyString]
  | String c s' =>
      if Ascii.eqb c sep then EmptyString :: split sep s'
      else match split sep s' with
           | piece :: pieces => String c piece :: pieces
           | [] => [String c EmptyString]
           end
  end.

(** [QList::first].  The source calls it on the result of [split] only,
    which is never empty ([split_not_nil]); on an empty list Qt asserts. *)
Definition first (l : list string) : string :=
  match l with
  | x :: _ => x
  | [] => EmptyString
  end.

(** The part of [s] before the first occurrence of [sep], the whole of
    [s] when [sep] does not occur. *)
Fixpoint before (sep : ascii) (s : string) : string :=
  match s with
  | EmptyString => EmptyString
  | String c s' => if Ascii.eqb c sep then EmptyString else String c (before sep s')
  end.

End QString.

Definition newline : ascii := ascii_of_nat 10.
Definition space : ascii := ascii_of_nat 32.
Definition dquote : string := String (ascii_of_nat 34) EmptyString.

(* ===================================================================== *)
(** ** Exceptions and outcomes *)
(* ===================================================================== *)

(** The exception classes the translation unit throws, catches or lets
    through.  [UnsupportedAliasException] is what the inherited
    [check_alias_is_supported] raises. *)
Inductive exn : Type :=
  | DownloadException (what : string)
  | UnsupportedRemoteException (remote : string)
  | UnsupportedAliasException (alias remote : string)
  | runtime_error (what : string).

Inductive outcome (A : Type) : Type :=
  | Ok (a : A)
  | Throw (e : exn).
Arguments Ok {A} a.
Arguments Throw {A} e.

Global Instance outcome_ret : MRet outcome := fun _ a => Ok a.
Global Instance outcome_bind : MBind outcome := fun _ _ k r =>
  match r with
  | Ok a => k a
  | Throw e => Throw e
  end.

(* ===================================================================== *)
(** ** The downloader *)
(* ===================================================================== *)

(** Qt's [QDateTime] and [QLocale::toString] are library code.  Of a
    timestamp the model keeps the one observation the source makes of it:
    its rendering under the format [yyyyMMdd] in the C locale. *)
Record QDateTime : Type := { yyyyMMdd : string }.

Definition QLocale_c_toString (t : QDateTime) : string := yyyyMMdd t.

(** Modelled from the spec: the interface [mp::URLDownloader], whose header
    is not part of the sources.  It has two operations,
    [last_modified(url)] and [download(url)]; both may fail with a
    download-failure condition, carried here as the message of the
    [DownloadException], and the capability is stateless. *)
Record URLDownloader : Type := {
  last_modified : string -> QDateTime + string;
  download : string -> string + string
}.

Definition from_download {A} (r : A + string) : outcome A :=
  match r with
  | inl a => Ok a
  | inr what => Throw (DownloadException what)
  end.

(* ===================================================================== *)
(** ** The metadata fetcher *)
(* ===================================================================== *)

Record BaseImageInfo : Type := {
  base_last_modified : string;
  base_hash : string
}.

(** The loop of [base_image_info_for] over the lines of the checksum
    listing: [hash] starts empty, the first line whose trimmed content ends
    with [image_file] sets it and leaves the loop. *)
Fixpoint scan_sha256_sums (sha256_sums : list string) (image_file : string) : string :=
  match sha256_sums with
  | [] => EmptyString
  | line :: rest =>
      if QString.endsWith (QString.trimmed line) image_file
      then QString.first (QString.split space line)
      else scan_sha256_sums rest image_file
  end.

Definition base_image_info_for (url_downloader : URLDownloader)
    (image_url hash_url image_file : string) : outcome BaseImageInfo :=
  t ← from_download (last_modified url_downloader image_url);
  let last_modified := QLocale_c_toString t in
  text ← from_download (download url_downloader hash_url);
  let sha256_sums := QString.split newline text in
  let hash := scan_sha256_sums sha256_sums image_file in
  Ok {| base_last_modified := last_modified; base_hash := hash |}.

(* ===================================================================== *)
(** ** The static catalog *)
(* ===================================================================== *)

Record CustomImageInfo : Type := {
  url_prefix : string;
  aliases : list string;
  os : string;
  release : string;
  release_string : string
}.

(** A [QMap<QString, V>]: its entries in increasing order of key, one per
    key.  [QString]'s [operator<] compares code units lexicographically. *)
Module QMap.

Definition t (V : Type) : Type := list (string * V).

(** [QMap::insert]: a new key goes to its place in the order, a key
    already present has its value replaced. *)
Fixpoint insert {V} (key : string) (value : V) (m : t V) : t V :=
  match m with
  | [] => [(key, value)]
  | (k, v) :: rest =>
      match String.compare key k with
      | Lt => (key, value) :: (k, v) :: rest
      | Eq => (key, value) :: rest
      | Gt => (k, v) :: insert key value rest
      end
  end.

(** The constructor from an initializer list inserts the pairs one
    after the other. *)
Definition from_list {V} (l : list (string * V)) : t V :=
  fold_left (fun m kv => insert (fst kv) (snd kv) m) l [].

Fixpoint find {V} (key : string) (m : t V) : option V :=
  match m with
  | [] => None
  | (k, v) :: rest => if String.eqb key k then Some v else find key rest
  end.

(** The const [operator[]]: the value under [key], a default-constructed
    value when there is none. *)
Definition value {V} (default : V) (m : t V) (key : string) : V :=
  from_option id default (find key m).

Definition size {V} (m : t V) : nat := length m.

(** [toStdMap]: a [std::map] ordered by the same [operator<] is iterated
    in the order of the [QMap]. *)
Definition toStdMap {V} (m : t V) : list (string * V) := m.

(** Keys strictly increasing. *)
Definition wf {V} (m : t V) : Prop :=
  StronglySorted (fun a b => String.compare a b = Lt) (map fst m).

End QMap.

Definition no_remote : string := EmptyString.

Definition multipass_image_info : QMap.t (QMap.t CustomImageInfo) :=
  QMap.from_list
    [("x86_64",
      QMap.from_list
        [("ubuntu-core-16-amd64.img.xz",
          {| url_prefix := "https://cdimage.ubuntu.com/ubuntu-core/16/stable/current/";
             aliases := ["core"; "core16"];
             os := "Ubuntu"; release := "core-16"; release_string := "Core 16" |});
         ("ubuntu-core-18-amd64.img.xz",
          {| url_prefix := "https://cdimage.ubuntu.com/ubuntu-core/18/stable/current/";
             aliases := ["core18"];
             os := "Ubuntu"; release := "core-18"; release_string := "Core 18" |});
         ("ubuntu-core-20-amd64.img.xz",
          {| url_prefix := "https://cdimage.ubuntu.com/ubuntu-core/20/stable/current/";
             aliases := ["core20"];
             os := "Ubuntu"; release := "core-20"; release_string := "Core 20" |});
         ("ubuntu-core-22-amd64.img.xz",
          {| url_prefix := "https://cdimage.ubuntu.com/ubuntu-core/22/stable/current/";
             aliases := ["core22"];
             os := "Ubuntu"; release := "core-22"; release_string := "Core 22" |})])].

(* ===================================================================== *)
(** ** Image records and manifests *)
(* ===================================================================== *)

(** Modelled from the spec: the struct [mp::VMImageInfo], whose header is
    not part of the sources.  The fields are those of the ImageRecord of the
    data model, in the order of the aggregate initialiser in
    [full_image_info_for]: alias set, OS name, release id, release string, a
    supported flag, the resolved source URL, the integrity hash (the
    identifier), a secondary identifier, the version, a size and a flag.
    Equality is field by field. *)
Record VMImageInfo : Type := {
  vm_aliases : list string;
  vm_os : string;
  vm_release : string;
  vm_release_title : string;
  vm_supported : bool;
  vm_image_location : string;
  vm_id : string;
  vm_stream_location : string;
  vm_version : string;
  vm_size : Z;
  vm_verify : bool
}.

Global Instance VMImageInfo_eq_dec : EqDecision VMImageInfo.
Proof. solve_decision. Defined.

(** [mp::VMImageInfo{}]: every member value-initialised. *)
Definition VMImageInfo_default : VMImageInfo :=
  {| vm_aliases := []; vm_os := EmptyString; vm_release := EmptyString;
     vm_release_title := EmptyString; vm_supported := false;
     vm_image_location := EmptyString; vm_id := EmptyString;
     vm_stream_location := EmptyString; vm_version := EmptyString;
     vm_size := 0%Z; vm_verify := false |}.

Global Instance VMImageInfo_inhabited : Inhabited VMImageInfo :=
  populate VMImageInfo_default.

Definition is_default_constructed (image_info : VMImageInfo) : bool :=
  bool_decide (image_info = VMImageInfo_default).

(** Modelled from the spec: the struct [mp::CustomManifest], whose header
    is not part of the sources: the owned sequence of records and the index
    from every identifier and alias to a back-reference into the sequence.
    A [const VMImageInfo*] into [products] is the position it points to. *)
Record CustomManifest : Type := {
  products : list VMImageInfo;
  image_records : gmap string nat
}.

(** [*p] for a pointer into the sequence of [m].  The index of a manifest
    built by [full_image_info_for] only holds positions inside the sequence
    ([image_records_in_range]); elsewhere the source's behaviour is
    undefined and the model reads a default record. *)
Definition deref (m : CustomManifest) (p : nat) : VMImageInfo :=
  products m !!! p.

(** The inner loop of [map_aliases_to_vm_info_for]: [map[alias] = &image]
    for every alias. *)
Definition map_aliases (p : nat) (image_aliases : list string)
    (map : gmap string nat) : gmap string nat :=
  fold_left (fun m alias => <[alias := p]> m) image_aliases map.

(** The body of the outer loop, for the record at position [p]. *)
Definition map_image (map : gmap string nat) (p : nat) (image : VMImageInfo)
    : gmap string nat :=
  if is_default_constructed image then map
  else map_aliases p (vm_aliases image) (<[vm_id image := p]> map).

(** The outer loop from position [p] on. *)
Fixpoint map_images_from (p : nat) (images : list VMImageInfo)
    (map : gmap string nat) : gmap string nat :=
  match images with
  | [] => map
  | image :: rest => map_images_from (S p) rest (map_image map p image)
  end.

Definition map_aliases_to_vm_info_for (images : list VMImageInfo) : gmap string nat :=
  map_images_from 0 images ∅.

(* ===================================================================== *)
(** ** The manifest builder *)
(* ===================================================================== *)

(** What the task of one catalog entry computes before it writes its slot:
    the two URLs, the fetched metadata and the record made of them. *)
Definition image_info_for_pair (url_downloader : URLDownloader)
    (image_info_pair : string * CustomImageInfo) : outcome VMImageInfo :=
  let image_file_name := fst image_info_pair in
  let custom_image_info := snd image_info_pair in
  let image_url := url_prefix custom_image_info +:+ fst image_info_pair in
  let hash_url := url_prefix custom_image_info +:+ "SHA256SUMS" in
  base_image_info ← base_image_info_for url_downloader image_url hash_url image_file_name;
  Ok {| vm_aliases := aliases custom_image_info;
        vm_os := os custom_image_info;
        vm_release := release custom_image_info;
        vm_release_title := release_string custom_image_info;
        vm_supported := true;
        vm_image_location := image_url;
        vm_id := base_hash base_image_info;
        vm_stream_location := EmptyString;
        vm_version := base_last_modified base_image_info;
        vm_size := 0%Z;
        vm_verify := true |}.

(** A task launched with [std::async]: it runs on the state it shares with
    the other tasks and ends normally or with an exception, which its
    future keeps. *)
Definition task (S : Type) : Type := S -> outcome unit * S.

(** The lambda [fetch_one_image_info_and_write_to_index].  The shared state
    is the vector [default_images]; [index] is a position of it (the loop
    that launches the tasks counts the entries), so the write is in range. *)
Definition fetch_one_image_info_and_write_to_index (index : nat)
    (url_downloader : URLDownloader) (image_info_pair : string * CustomImageInfo)
    : task (list VMImageInfo) :=
  fun default_images =>
    match image_info_for_pair url_downloader image_info_pair with
    | Ok image => (Ok tt, <[index := image]> default_images)
    | Throw e => (Throw e, default_images)
    end.

(** The order in which [n] concurrent tasks complete.  Any list of numbers
    describes one: the tasks named by [schedule] complete in that order (a
    number that names no task, or names one again, is skipped), and the
    tasks not named complete afterwards, since joining a future waits for
    its task.  ([remove_dups] keeps the last of equal elements, hence the
    reversals.)  Every permutation of the tasks is the order of some list. *)
Definition completion_order (n : nat) (schedule : list nat) : list nat :=
  reverse (remove_dups (reverse (List.filter (fun i => i <? n) schedule ++ seq 0 n))).

(** The tasks run one after the other in [order] on the shared state; the
    result lists which task ended how. *)
Fixpoint run_tasks {S} (tasks : list (task S)) (order : list nat) (shared : S)
    : list (nat * outcome unit) * S :=
  match order with
  | [] => ([], shared)
  | i :: rest =>
      match tasks !! i with
      | Some t =>
          let r := t shared in
          let rs := run_tasks tasks rest (snd r) in
          ((i, fst r) :: fst rs, snd rs)
      | None => run_tasks tasks rest shared
      end
  end.

(** [future.get()] for the task with number [i]: the task's exception is
    rethrown.  Under a [completion_order] every task has completed. *)
Definition future_get (completed : list (nat * outcome unit)) (i : nat) : outcome unit :=
  match List.find (fun c => fst c =? i) completed with
  | Some c => snd c
  | None => Ok tt
  end.

(** The loop over [empty_futures], in the order the tasks were launched. *)
Fixpoint get_all (completed : list (nat * outcome unit)) (futures : list nat)
    : outcome unit :=
  match futures with
  | [] => Ok tt
  | i :: rest => _ ← future_get completed i; get_all completed rest
  end.

Definition full_image_info_for (custom_image_info : QMap.t CustomImageInfo)
    (url_downloader : URLDownloader) (schedule : list nat) : outcome CustomManifest :=
  let default_images := replicate (QMap.size custom_image_info) VMImageInfo_default in
  let tasks :=
    imap (fun index image_info_pair =>
            fetch_one_image_info_and_write_to_index index url_downloader image_info_pair)
         (QMap.toStdMap custom_image_info) in
  let ran := run_tasks tasks (completion_order (length tasks) schedule) default_images in
  let default_images := snd ran in
  _ ← get_all (fst ran) (seq 0 (length tasks));
  let map := map_aliases_to_vm_info_for default_images in
  Ok {| products := default_images; image_records := map |}.

(* ===================================================================== *)
(** ** The host: members, cache and the monad of member functions *)
(* ===================================================================== *)

(** The fields of [mp::Query] that the translation unit reads. *)
Record Query : Type := {
  query_release : string;
  query_remote_name : string
}.

(** Modelled from the spec: the capabilities inherited from the base class
    [CommonVMImageHost], whose code is not part of the sources: the
    remote and alias support predicates.  [check_remote_is_supported] and
    [check_alias_is_supported] below fail where these are false. *)
Record CommonVMImageHost : Type := {
  is_remote_supported : string -> bool;
  is_alias_supported : string -> string -> bool;
  alias_verifies_image_is_supported : list string -> string -> bool
}.

(** The members of [CustomVMImageHost] that no member function changes. *)
Record CustomVMImageHost : Type := {
  base : CommonVMImageHost;
  arch : string;
  url_downloader : URLDownloader;
  remotes : list string
}.

(** What a member function does to the mutex, the cache and the failure
    sink, in the order it does it. *)
Inductive event : Type :=
  | MutexLock
  | MutexUnlock
  | CacheFind (remote : string)
  | CacheEmplace (remote : string)
  | CacheClear
  | ManifestUpdateFailure (what : string).

(** The mutable part: the cache [custom_image_info] and the events so far,
    oldest first.  The member is declared in the header, which is not part
    of the sources; the translation unit uses it through [find], [end],
    [it->second], [emplace], [clear] and an iteration over its pairs, the
    interface of a standard associative container with unique keys
    ([std::map], [std::unordered_map]) from remote name to owned manifest. *)
Record state : Type := {
  custom_image_info : gmap string CustomManifest;
  trace : list event
}.

Definition M (A : Type) : Type := CustomVMImageHost -> state -> outcome A * state.

Global Instance M_ret : MRet M := fun _ a _ s => (Ok a, s).
Global Instance M_bind : MBind M := fun _ _ k m self s =>
  match m self s with
  | (Ok a, s') => k a self s'
  | (Throw e, s') => (Throw e, s')
  end.

Definition this : M CustomVMImageHost := fun self s => (Ok self, s).
Definition throw {A} (e : exn) : M A := fun _ s => (Throw e, s).
Definition lift {A} (r : outcome A) : M A := fun _ s => (r, s).
Definition emit (e : event) : M unit :=
  fun _ s => (Ok tt, {| custom_image_info := custom_image_info s; trace := trace s ++ [e] |}).

(** [try { body } catch (...) { handler }]. *)
Definition try_catch {A} (body : M A) (handler : exn -> M A) : M A :=
  fun self s =>
    match body self s with
    | (Ok a, s') => (Ok a, s')
    | (Throw e, s') => handler e self s'
    end.

(** A scope that opens with a [std::lock_guard] on [custom_image_info_mutex]:
    the mutex is released when the scope is left, by an exception too. *)
Definition lock_guard {A} (scope : M A) : M A :=
  fun self s =>
    let r := (emit MutexLock;; scope) self s in
    (fst r, snd (emit MutexUnlock self (snd r))).

(** A range-based [for] whose body may throw. *)
Fixpoint for_each {A} (l : list A) (body : A -> M unit) : M unit :=
  match l with
  | [] => mret tt
  | x :: rest => body x;; for_each rest body
  end.

Definition read_cache : M (gmap string CustomManifest) :=
  fun _ s => (Ok (custom_image_info s), s).
Definition write_cache (cache : gmap string CustomManifest) : M unit :=
  fun _ s => (Ok tt, {| custom_image_info := cache; trace := trace s |}).

(** [custom_image_info.find(remote_name)]. *)
Definition cache_find (remote_name : string) : M (option CustomManifest) :=
  emit (CacheFind remote_name);;
  cache ← read_cache;
  mret (cache !! remote_name).

(** [custom_image_info.emplace(remote, manifest)]: the standard containers
    insert when there is no element with the key and leave the container as
    it is otherwise. *)
Definition cache_emplace (remote : string) (manifest : CustomManifest) : M unit :=
  emit (CacheEmplace remote);;
  cache ← read_cache;
  match cache !! remote with
  | Some _ => mret tt
  | None => write_cache (<[remote := manifest]> cache)
  end.

(** [custom_image_info.clear()]. *)
Definition cache_clear : M unit :=
  emit CacheClear;;
  write_cache ∅.

(** Modelled from the spec: [check_remote_is_supported(name)] fails if the
    remote is unknown; the exception is the one [fetch_manifests] catches. *)
Definition check_remote_is_supported (remote_name : string) : M unit :=
  self ← this;
  if is_remote_supported (base self) remote_name then mret tt
  else throw (UnsupportedRemoteException remote_name).

(** Modelled from the spec: [check_alias_is_supported(alias, remote)] fails
    if the combination is unknown. *)
Definition check_alias_is_supported (alias remote_name : string) : M unit :=
  self ← this;
  if is_alias_supported (base self) alias remote_name then mret tt
  else throw (UnsupportedAliasException alias remote_name).

(** Modelled from the spec: the failure sink [on_manifest_update_failure]
    is invoked, not thrown: it records the message. *)
Definition on_manifest_update_failure (what : string) : M unit :=
  emit (ManifestUpdateFailure what).

(* ===================================================================== *)
(** ** The member functions of [CustomVMImageHost] *)
(* ===================================================================== *)

(** The constructor: an empty cache, the one remote [no_remote]. *)
Definition CustomVMImageHost_new (common : CommonVMImageHost) (arch : string)
    (downloader : URLDownloader) : CustomVMImageHost * state :=
  ({| base := common; arch := arch; url_downloader := downloader; remotes := [no_remote] |},
   {| custom_image_info := ∅; trace := [] |}).

Definition unknown_remote_message (remote_name : string) : string :=
  "Remote " +:+ dquote +:+ remote_name +:+ dquote +:+ " is unknown or unreachable.".

Definition manifest_from (remote_name : string) : M CustomManifest :=
  check_remote_is_supported remote_name;;
  lock_guard (
    it ← cache_find remote_name;
    match it with
    | None => throw (runtime_error (unknown_remote_message remote_name))
    | Some manifest => mret manifest
    end).

Definition info_for (query : Query) : M (option VMImageInfo) :=
  check_alias_is_supported (query_release query) (query_remote_name query);;
  custom_manifest ← manifest_from (query_remote_name query);
  match image_records custom_manifest !! query_release query with
  | None => mret None
  | Some p => mret (Some (deref custom_manifest p))
  end.

Definition all_info_for (query : Query) : M (list (string * VMImageInfo)) :=
  image ← info_for query;
  match image with
  | Some i => mret [(query_remote_name query, i)]
  | None => mret []
  end.

Definition info_for_full_hash_impl (full_hash : string) : M VMImageInfo :=
  mret VMImageInfo_default.

Definition all_images_for (remote_name : string) (allow_unsupported : bool)
    : M (list VMImageInfo) :=
  self ← this;
  custom_manifest ← manifest_from remote_name;
  let pred := fun product =>
    alias_verifies_image_is_supported (base self) (vm_aliases product) remote_name in
  mret (List.filter pred (products custom_manifest)).

Definition supported_remotes : M (list string) :=
  self ← this; mret (remotes self).

Definition fetch_manifests (schedule : list nat) : M unit :=
  self ← this;
  for_each [(no_remote, QMap.value [] multipass_image_info (arch self))] (fun spec =>
    try_catch
      (check_remote_is_supported (fst spec);;
       custom_manifest ← lift (full_image_info_for (snd spec) (url_downloader self) schedule);
       lock_guard (cache_emplace (fst spec) custom_manifest))
      (fun e =>
         match e with
         | DownloadException what => on_manifest_update_failure what
         | UnsupportedRemoteException _ => mret tt
         | _ => throw e
         end)).

Definition clear : M unit :=
  lock_guard cache_clear.

(** A rebuild of the cache: the cache is cleared, then the
    manifests are fetched. *)
Definition clear_then_refresh (schedule : list nat) : M unit :=
  clear;; fetch_manifests schedule.

(** The state [s] with [events] added to its trace, the cache as it was. *)
Definition log_events (s : state) (events : list event) : state :=
  {| custom_image_info := custom_image_info s; trace := trace s ++ events |}.

(** The catalog a host fetches: [multipass_image_info[arch]]. *)
Definition catalog_of (self : CustomVMImageHost) : QMap.t CustomImageInfo :=
  QMap.value [] multipass_image_info (arch self).

(* ===================================================================== *)
(** ** Reference definitions, after the words of the specification *)
(* ===================================================================== *)

(** The hash the specification selects from the lines of a checksum
    listing: of the first line whose trimmed content ends with the artifact
    filename, the part before the first space; empty when no line matches. *)
Definition selected_hash (lines : list string) (image_file : string) : string :=
  match List.find (fun line => QString.endsWith (QString.trimmed line) image_file) lines with
  | Some line => QString.before space line
  | None => EmptyString
  end.

(** The records of the catalog entries fetched one after the other in the
    order of the filenames; the first failure ends the fetching. *)
Fixpoint fetch_all (url_downloader : URLDownloader)
    (pairs : list (string * CustomImageInfo)) : outcome (list VMImageInfo) :=
  match pairs with
  | [] => Ok []
  | image_info_pair :: rest =>
      image ← image_info_for_pair url_downloader image_info_pair;
      images ← fetch_all url_downloader rest;
      Ok (image :: images)
  end.

(** The manifest of a catalog without any concurrency. *)
Definition build_in_order (catalog : QMap.t CustomImageInfo)
    (url_downloader : URLDownloader) : outcome CustomManifest :=
  images ← fetch_all url_downloader (QMap.toStdMap catalog);
  Ok {| products := images; image_records := map_aliases_to_vm_info_for images |}.

(** The strings under which the index files a record: its identifier and
    its aliases. *)
Definition keys_of (image : VMImageInfo) : list string :=
  vm_id image :: vm_aliases image.

(** The index files [image] under [key]: the record is not
    default-constructed and [key] is one of its keys. *)
Definition carries (image : VMImageInfo) (key : string) : bool :=
  negb (is_default_constructed image) && bool_decide (key ∈ keys_of image).

(** [p] is the last position of [images] whose record is not
    default-constructed and has [key] among its keys. *)
Definition last_with_key (images : list VMImageInfo) (key : string) (p : nat) : Prop :=
  ∃ image,
    images !! p = Some image ∧
    is_default_constructed image = false ∧
    key ∈ keys_of image ∧
    ∀ q image', p < q → images !! q = Some image' →
      is_default_constructed image' = true ∨ key ∉ keys_of image'.

(* ===================================================================== *)
(** ** Enumeration of the cache and sequences of calls *)
(* ===================================================================== *)

(** [for_each_entry_do_impl].  The action belongs to the caller: it is
    given as what one call of it does to the caller's own state [V].  The
    mutex is held for the whole iteration.  A standard unordered container
    is iterated in an order the standard leaves open; the model takes the
    order of [map_to_list], and nothing proved of it depends on that
    order. *)
Definition for_each_entry_do_impl {V} (action : string -> VMImageInfo -> V -> V)
    (visitor : V) : M V :=
  self ← this;
  lock_guard (
    cache ← read_cache;
    mret (fold_left
            (fun v manifest =>
               fold_left
                 (fun v info =>
                    if alias_verifies_image_is_supported (base self)
                         (vm_aliases info) (fst manifest)
                    then action (fst manifest) info v
                    else v)
                 (products (snd manifest)) v)
            (map_to_list cache) visitor)).

(** An action that notes down the calls made of it, in their order. *)
Definition note_entry (remote : string) (info : VMImageInfo)
    (seen : list (string * VMImageInfo)) : list (string * VMImageInfo) :=
  seen ++ [(remote, info)].

(** A call of a public member function of the host. *)
Inductive call : Type :=
  | InfoFor (query : Query)
  | AllInfoFor (query : Query)
  | InfoForFullHash (full_hash : string)
  | AllImagesFor (remote_name : string) (allow_unsupported : bool)
  | ForEachEntry
  | SupportedRemotes
  | FetchManifests (schedule : list nat)
  | Clear.

(** The state a call leaves, whether it returns or throws (the caller that
    catches the exception goes on with the same object). *)
Definition state_after (c : call) (self : CustomVMImageHost) (s : state) : state :=
  match c with
  | InfoFor query => snd (info_for query self s)
  | AllInfoFor query => snd (all_info_for query self s)
  | InfoForFullHash full_hash => snd (info_for_full_hash_impl full_hash self s)
  | AllImagesFor remote_name allow_unsupported =>
      snd (all_images_for remote_name allow_unsupported self s)
  | ForEachEntry => snd (for_each_entry_do_impl note_entry [] self s)
  | SupportedRemotes => snd (supported_remotes self s)
  | FetchManifests schedule => snd (fetch_manifests schedule self s)
  | Clear => snd (clear self s)
  end.

Definition state_after_calls (calls : list call) (self : CustomVMImageHost) (s : state)
    : state :=
  fold_left (fun s c => state_after c self s) calls s.

(** The cache is empty, or it holds for [no_remote], and for no other
    remote, the complete manifest of the host's catalog. *)
Definition built_cache (self : CustomVMImageHost) (s : state) : Prop :=
  custom_image_info s = ∅
  ∨ ∃ manifest,
      build_in_order (catalog_of self) (url_downloader self) = Ok manifest
      ∧ custom_image_info s = {[ no_remote := manifest ]}.

(** The events keep the discipline of the mutex: [held] tells whether the
    mutex is held before them; it is never locked while held nor unlocked
    while free, the cache is touched only while it is held, the failure
    sink is called only while it is free, and it is free at the end. *)
Fixpoint well_locked (held : bool) (events : list event) : bool :=
  match events with
  | [] => negb held
  | MutexLock :: rest => negb held && well_locked true rest
  | MutexUnlock :: rest => held && well_locked false rest
  | ManifestUpdateFailure _ :: rest => negb held && well_locked false rest
  | (CacheFind _ | CacheEmplace _ | CacheClear) :: rest => held && well_locked true rest
  end.

(** A call that only reads: the cache is as before, and the events added
    keep the discipline of the mutex. *)
Definition reads_only (s s' : state) : Prop :=
  custom_image_info s' = custom_image_info s
  ∧ ∃ added, trace s' = trace s ++ added ∧ well_locked false added = true.

(** Every character of [s] satisfies [p]. *)
Fixpoint string_forall (p : ascii -> bool) (s : string) : bool :=
  match s with
  | EmptyString => true
  | String c s' => p c && string_forall p s'
  end.

Definition is_space_char (c : ascii) : bool := Ascii.eqb c space.

(* ===================================================================== *)
(** ** Concrete hosts, downloaders and states *)
(* ===================================================================== *)

Module Examples.

Definition line16 : string := "aaa16  ubuntu-core-16-amd64.img.xz".
Definition line18 : string := "bbb18 *ubuntu-core-18-amd64.img.xz  ".
Definition line20 : string := "ccc20 ubuntu-core-20-amd64.img.xz".
Definition line22 : string := "ddd22 ubuntu-core-22-amd64.img.xz".

(** A checksum listing with a line for each of the four artifacts. *)
Definition sha256sums : string :=
  line16 +:+ String newline line18 +:+ String newline line20
         +:+ String newline line22 +:+ String newline EmptyString.

Definition stamp : QDateTime := {| yyyyMMdd := "20240101" |}.

(** Every fetch succeeds. *)
Definition downloader : URLDownloader :=
  {| last_modified := fun _ => inl stamp; download := fun _ => inl sha256sums |}.

(** Every fetch succeeds; the checksum listings name no artifact. *)
Definition downloader_without_sums : URLDownloader :=
  {| last_modified := fun _ => inl stamp; download := fun _ => inl EmptyString |}.

(** The checksum listing of Core 20 cannot be downloaded. *)
Definition failing_downloader : URLDownloader :=
  {| last_modified := fun _ => inl stamp;
     download := fun url =>
       if String.eqb url "https://cdimage.ubuntu.com/ubuntu-core/20/stable/current/SHA256SUMS"
       then inr "failed to download" else inl sha256sums |}.

(** A platform that knows the remote [no_remote] and the aliases of the
    catalog. *)
Definition common : CommonVMImageHost :=
  {| is_remote_supported := fun remote => String.eqb remote no_remote;
     is_alias_supported := fun alias remote =>
       String.eqb remote no_remote
       && bool_decide (alias ∈ ["core"; "core16"; "core18"; "core20"; "core22"]);
     alias_verifies_image_is_supported := fun image_aliases remote =>
       String.eqb remote no_remote
       && bool_decide (image_aliases ≠ ["core20"]) |}.

Definition host (dl : URLDownloader) : CustomVMImageHost :=
  fst (CustomVMImageHost_new common "x86_64" dl).

Definition fresh : state := snd (CustomVMImageHost_new common "x86_64" downloader).

(** A manifest with no records. *)
Definition stale_manifest : CustomManifest :=
  {| products := []; image_records := ∅ |}.

(** A cache that holds [stale_manifest] for the remote. *)
Definition stale : state :=
  {| custom_image_info := {[ no_remote := stale_manifest ]}; trace := [] |}.

(** The state after one successful refresh of a fresh host. *)
Definition refreshed : state :=
  snd (fetch_manifests [] (host downloader) fresh).

Definition core18_query : Query :=
  {| query_release := "core18"; query_remote_name := no_remote |}.

Definition small_catalog : list (string * CustomImageInfo) :=
  [("b.img", {| url_prefix := "http://h/b/"; aliases := ["b"]; os := "Ubuntu";
                release := "b"; release_string := "B" |});
   ("a.img", {| url_prefix := "http://h/a/"; aliases := ["a"]; os := "Ubuntu";
                release := "a"; release_string := "A" |})].

Definition record (image_id : string) (image_aliases : list string) : VMImageInfo :=
  {| vm_aliases := image_aliases; vm_os := "Ubuntu"; vm_release := "r";
     vm_release_title := "R"; vm_supported := true; vm_image_location := "http://h/";
     vm_id := image_id; vm_stream_location := EmptyString; vm_version := "20240101";
     vm_size := 0%Z; vm_verify := true |}.

(** The manifest of [small_catalog], its initializer list in the order
    [b.img], [a.img]. *)
Definition small_manifest : CustomManifest :=
  match full_image_info_for (QMap.from_list small_catalog) downloader [1; 0] with
  | Ok manifest => manifest
  | Throw _ => stale_manifest
  end.

Definition core18_record : VMImageInfo :=
  {| vm_aliases := ["core18"]; vm_os := "Ubuntu"; vm_release := "core-18";
     vm_release_title := "Core 18"; vm_supported := true;
     vm_image_location :=
       "https://cdimage.ubuntu.com/ubuntu-core/18/stable/current/ubuntu-core-18-amd64.img.xz";
     vm_id := "bbb18"; vm_stream_location := EmptyString; vm_version := "20240101";
     vm_size := 0%Z; vm_verify := true |}.

End Examples.

Module Scenarios.

(** No fetch succeeds. *)
Definition dead_downloader : URLDownloader :=
  {| last_modified := fun _ => inr "no network"; download := fun _ => inr "no network" |}.

(** A host for an architecture the catalog does not list. *)
Definition arm_host : CustomVMImageHost :=
  fst (CustomVMImageHost_new Examples.common "aarch64" dead_downloader).

Definition empty_manifest : CustomManifest :=
  {| products := []; image_records := ∅ |}.

(** A listing in the format of [sha256sum -b], with carriage returns. *)
Definition crlf_listing : list string :=
  ["1111 *other.img" +:+ String (ascii_of_nat 13) EmptyString;
   "2222 *disk.img" +:+ String (ascii_of_nat 13) EmptyString].

Definition two_remotes : state :=
  {| custom_image_info :=
       {[ "one" := {| products := [Examples.record "h1" ["a"]; Examples.record "h2" ["core20"]];
                      image_records := ∅ |};
          "two" := {| products := [Examples.record "h3" ["c"]]; image_records := ∅ |} ]};
     trace := [] |}.

Definition busy_calls : list call :=
  [InfoFor Examples.core18_query; FetchManifests [2]; AllImagesFor no_remote true;
   ForEachEntry; Clear; AllInfoFor Examples.core18_query; FetchManifests []].

End Scenarios.

(* ===================================================================== *)
(** ** Strings *)
(* ===================================================================== *)

Lemma split_not_nil sep s : QString.split sep s <> [].
Proof.
  destruct s as [|c s]; cbn; [discriminate|].
  destruct (Ascii.eqb c sep); [discriminate|].
  destruct (QString.split sep s); discriminate.
Qed.

Lemma first_split sep s : QString.first (QString.split sep s) = QString.before sep s.
Proof.
  induction s as [|c s IH]; cbn; [reflexivity|].
  destruct (Ascii.eqb c sep); [reflexivity|].
  destruct (QString.split sep s) eqn:E; cbn in *.
  - exfalso. eapply split_not_nil; eauto.
  - rewrite IH. reflexivity.
Qed.

Lemma scan_sha256_sums_selected sha256_sums image_file :
  scan_sha256_sums sha256_sums image_file = selected_hash sha256_sums image_file.
Proof.
  unfold selected_hash.
  induction sha256_sums as [|line rest IH]; cbn; [reflexivity|].
  destruct (QString.endsWith _ _); [apply first_split | apply IH].
Qed.

(** C6. The metadata fetcher, once both downloads have succeeded, returns
    without an error the hash the specification selects from the lines of
    the checksum listing: of the first line whose whitespace-trimmed content
    ends with the artifact filename, the part before its first space, and
    the empty string when no line matches.  A failed download is the only
    error. *)
Theorem base_image_info_for_selects_hash url_downloader image_url hash_url image_file :
  base_image_info_for url_downloader image_url hash_url image_file =
    match last_modified url_downloader image_url with
    | inr what => Throw (DownloadException what)
    | inl t =>
        match download url_downloader hash_url with
        | inr what => Throw (DownloadException what)
        | inl text =>
            Ok {| base_last_modified := QLocale_c_toString t;
                  base_hash := selected_hash (QString.split newline text) image_file |}
        end
    end.
Proof.
  unfold base_image_info_for.
  destruct (last_modified url_downloader image_url) as [t|what]; cbn; [|reflexivity].
  destruct (download url_downloader hash_url) as [text|what]; cbn; [|reflexivity].
  rewrite scan_sha256_sums_selected. reflexivity.
Qed.

Example selected_hash_line18 :
  selected_hash (QString.split newline Examples.sha256sums) "ubuntu-core-18-amd64.img.xz"
  = "bbb18".
Proof. reflexivity. Qed.

Example selected_hash_no_line :
  selected_hash (QString.split newline Examples.sha256sums) "ubuntu-core-24-amd64.img.xz"
  = EmptyString.
Proof. reflexivity. Qed.

(* ===================================================================== *)
(** ** The query layer *)
(* ===================================================================== *)

Ltac run_M :=
  cbv [mbind mret M_bind M_ret this throw lift emit try_catch lock_guard
       read_cache write_cache cache_find cache_emplace cache_clear
       check_remote_is_supported check_alias_is_supported
       on_manifest_update_failure for_each log_events];
  cbn [fst snd custom_image_info trace].

(** What [manifest_from] returns and does, case by case. *)
Lemma manifest_from_eq remote_name self s :
  manifest_from remote_name self s =
    if is_remote_supported (base self) remote_name then
      match custom_image_info s !! remote_name with
      | Some manifest =>
          (Ok manifest, log_events s [MutexLock; CacheFind remote_name; MutexUnlock])
      | None =>
          (Throw (runtime_error (unknown_remote_message remote_name)),
           log_events s [MutexLock; CacheFind remote_name; MutexUnlock])
      end
    else (Throw (UnsupportedRemoteException remote_name), s).
Proof.
  unfold manifest_from. run_M.
  destruct (is_remote_supported (base self) remote_name); [|reflexivity].
  destruct (custom_image_info s !! remote_name); cbn; rewrite <- !app_assoc; reflexivity.
Qed.

(** C7. For a remote that passes the support check and has no entry in the
    cache, [manifest_from] throws the runtime error "remote unknown or
    unreachable", which is not the exception of the support check (the one
    an unsupported remote gets); the cache was searched between a lock and
    an unlock of the mutex and is as it was. *)
Theorem manifest_from_unknown_remote remote_name self s :
  is_remote_supported (base self) remote_name = true →
  custom_image_info s !! remote_name = None →
  manifest_from remote_name self s =
    (Throw (runtime_error (unknown_remote_message remote_name)),
     {| custom_image_info := custom_image_info s;
        trace := trace s ++ [MutexLock; CacheFind remote_name; MutexUnlock] |})
  ∧ (∀ self' s',
       is_remote_supported (base self') remote_name = false →
       manifest_from remote_name self' s' = (Throw (UnsupportedRemoteException remote_name), s')
       ∧ UnsupportedRemoteException remote_name
         ≠ runtime_error (unknown_remote_message remote_name)).
Proof.
  intros Hsupported Habsent. split.
  - rewrite manifest_from_eq, Hsupported, Habsent. reflexivity.
  - intros self' s' Hunsupported. split; [|discriminate].
    rewrite manifest_from_eq, Hunsupported. reflexivity.
Qed.

Lemma manifest_from_unknown_remote_witness :
  manifest_from no_remote (Examples.host Examples.downloader) Examples.fresh =
    (Throw (runtime_error (unknown_remote_message no_remote)),
     {| custom_image_info := ∅; trace := [MutexLock; CacheFind no_remote; MutexUnlock] |}).
Proof.
  exact (proj1 (manifest_from_unknown_remote no_remote
                  (Examples.host Examples.downloader) Examples.fresh eq_refl eq_refl)).
Defined.

(** C3. [info_for] first checks that (release, remote) is a supported
    combination: when it is not, the query fails at once, whatever the cache
    holds, with the state untouched (no lock taken, no cache search).  When
    the checks pass and the cache holds a manifest for the remote, the
    result is the record the manifest's alias index maps the release string
    to, and the empty optional, not an error, when the index has no such
    key. *)
Theorem info_for_checks_then_looks_up query self s :
  (is_alias_supported (base self) (query_release query) (query_remote_name query) = false →
   info_for query self s =
     (Throw (UnsupportedAliasException (query_release query) (query_remote_name query)), s))
  ∧ (∀ manifest,
       is_alias_supported (base self) (query_release query) (query_remote_name query) = true →
       is_remote_supported (base self) (query_remote_name query) = true →
       custom_image_info s !! query_remote_name query = Some manifest →
       info_for query self s =
         (Ok (deref manifest <$> image_records manifest !! query_release query),
          log_events s [MutexLock; CacheFind (query_remote_name query); MutexUnlock])).
Proof.
  split.
  - intros Hunsupported. unfold info_for. run_M. rewrite Hunsupported. reflexivity.
  - intros manifest Halias Hremote Hcached.
    unfold info_for.
    cbv [mbind mret M_bind M_ret this throw check_alias_is_supported].
    rewrite Halias, manifest_from_eq, Hremote, Hcached.
    destruct (image_records manifest !! query_release query); reflexivity.
Qed.

Lemma info_for_checks_then_looks_up_witness :
  info_for Examples.core18_query (Examples.host Examples.downloader) Examples.refreshed =
    (Ok (Some Examples.core18_record),
     log_events Examples.refreshed [MutexLock; CacheFind no_remote; MutexUnlock]).
Proof.
  refine (eq_trans
            (proj2 (info_for_checks_then_looks_up Examples.core18_query
                      (Examples.host Examples.downloader) Examples.refreshed)
                   (from_option id Examples.stale_manifest
                      (custom_image_info Examples.refreshed !! no_remote)) _ _ _) _);
    vm_compute; reflexivity.
Defined.

(** C5. [all_images_for] does not look at its flag: with [true] and with
    [false] it is the same computation, on every remote and state.  When the
    remote is supported and the cache holds its manifest, the result is
    exactly the records of that manifest, in their order, whose alias set
    verifies as supported for the remote. *)
Theorem all_images_for_ignores_flag remote_name self s :
  all_images_for remote_name true self s = all_images_for remote_name false self s
  ∧ (∀ manifest allow_unsupported,
       is_remote_supported (base self) remote_name = true →
       custom_image_info s !! remote_name = Some manifest →
       all_images_for remote_name allow_unsupported self s =
         (Ok (List.filter
                (fun product =>
                   alias_verifies_image_is_supported (base self) (vm_aliases product) remote_name)
                (products manifest)),
          log_events s [MutexLock; CacheFind remote_name; MutexUnlock])).
Proof.
  split; [reflexivity|].
  intros manifest allow_unsupported Hremote Hcached.
  unfold all_images_for.
  cbv [mbind mret M_bind M_ret this].
  rewrite manifest_from_eq, Hremote, Hcached. reflexivity.
Qed.

Lemma all_images_for_ignores_flag_witness :
  all_images_for no_remote true (Examples.host Examples.downloader) Examples.refreshed =
    (Ok (List.filter (fun product => bool_decide (vm_aliases product ≠ ["core20"]))
           (products (from_option id Examples.stale_manifest
                        (custom_image_info Examples.refreshed !! no_remote)))),
     log_events Examples.refreshed [MutexLock; CacheFind no_remote; MutexUnlock]).
Proof.
  exact (proj2 (all_images_for_ignores_flag no_remote
                  (Examples.host Examples.downloader) Examples.refreshed)
               (from_option id Examples.stale_manifest
                  (custom_image_info Examples.refreshed !! no_remote))
               true eq_refl eq_refl).
Defined.

Example all_images_for_three_of_four :
  (fun r => match fst r with Ok images => map vm_release images | Throw _ => [] end)
    (all_images_for no_remote false (Examples.host Examples.downloader) Examples.refreshed)
  = ["core-16"; "core-18"; "core-22"].
Proof. vm_compute. reflexivity. Qed.

(** C10. [info_for_full_hash_impl] returns a default-constructed record for
    every hash, on every host and state: it never throws, and the state it
    leaves is the one it found (the cache is not searched, the mutex not
    taken), so no stored record is ever matched. *)
Theorem info_for_full_hash_impl_is_default full_hash self s :
  info_for_full_hash_impl full_hash self s = (Ok VMImageInfo_default, s)
  ∧ is_default_constructed VMImageInfo_default = true.
Proof. split; reflexivity. Qed.

Example info_for_full_hash_impl_of_stored_hash :
  fst (info_for_full_hash_impl "bbb18" (Examples.host Examples.downloader) Examples.refreshed)
  = Ok VMImageInfo_default.
Proof. reflexivity. Qed.

(* ===================================================================== *)
(** ** Completion orders *)
(* ===================================================================== *)

Lemma completion_order_elem n schedule i :
  i ∈ completion_order n schedule ↔ i < n.
Proof.
  unfold completion_order.
  rewrite elem_of_reverse, elem_of_remove_dups, elem_of_reverse, elem_of_app, elem_of_seq.
  rewrite list_elem_of_In, filter_In, Nat.ltb_lt. lia.
Qed.

Lemma completion_order_NoDup n schedule : NoDup (completion_order n schedule).
Proof.
  unfold completion_order. rewrite reverse_Permutation. apply NoDup_remove_dups.
Qed.

(** A completion order is a permutation of the tasks. *)
Lemma completion_order_Permutation n schedule :
  completion_order n schedule ≡ₚ seq 0 n.
Proof.
  apply NoDup_Permutation.
  - apply completion_order_NoDup.
  - apply NoDup_seq.
  - intros i. rewrite completion_order_elem, elem_of_seq. lia.
Qed.

Lemma remove_dups_app_subseteq {A} `{EqDecision A} (l k : list A) :
  l ⊆ k → remove_dups (l ++ k) = remove_dups k.
Proof.
  induction l as [|x l IH]; intros Hsub; [reflexivity|].
  cbn. destruct (decide_rel (∈) x (l ++ k)) as [_|Hnot].
  - apply IH. intros y Hy. apply Hsub. now right.
  - exfalso. apply Hnot, elem_of_app. right. apply Hsub. now left.
Qed.

Lemma remove_dups_NoDup {A} `{EqDecision A} (l : list A) :
  NoDup l → remove_dups l = l.
Proof.
  induction 1 as [|x l Hx Hl IH]; [reflexivity|].
  cbn. destruct (decide_rel (∈) x l) as [Hin|_]; [contradiction|]. now rewrite IH.
Qed.

(** Every permutation of the tasks is a completion order: its own. *)
Lemma completion_order_of_Permutation n order :
  order ≡ₚ seq 0 n → completion_order n order = order.
Proof.
  intros Hperm. unfold completion_order.
  assert (Hall : List.filter (fun i => i <? n) order = order).
  { apply forallb_filter_id, forallb_forall. intros i Hi.
    apply Nat.ltb_lt. apply list_elem_of_In in Hi.
    rewrite Hperm, elem_of_seq in Hi. lia. }
  rewrite Hall, reverse_app, remove_dups_app_subseteq.
  - rewrite remove_dups_NoDup, reverse_involutive; [reflexivity|].
    rewrite reverse_Permutation, Hperm. apply NoDup_seq.
  - intros i. rewrite !elem_of_reverse, Hperm. tauto.
Qed.

(* ===================================================================== *)
(** ** The manifest builder against the build in order *)
(* ===================================================================== *)

Section Builder.

Variable url_downloader : URLDownloader.
Variable pairs : list (string * CustomImageInfo).

Let tasks : list (task (list VMImageInfo)) :=
  imap (fun index image_info_pair =>
          fetch_one_image_info_and_write_to_index index url_downloader image_info_pair)
       pairs.

(** How a task ends, without the record. *)
Let ending (image_info_pair : string * CustomImageInfo) : outcome unit :=
  _ ← image_info_for_pair url_downloader image_info_pair; Ok tt.

Lemma tasks_lookup i :
  tasks !! i =
    (fun image_info_pair =>
       fetch_one_image_info_and_write_to_index i url_downloader image_info_pair)
      <$> pairs !! i.
Proof. unfold tasks. rewrite list_lookup_imap. reflexivity. Qed.

Lemma task_ending i image_info_pair shared :
  fst (fetch_one_image_info_and_write_to_index i url_downloader image_info_pair shared)
  = ending image_info_pair.
Proof.
  unfold fetch_one_image_info_and_write_to_index, ending.
  destruct (image_info_for_pair url_downloader image_info_pair); reflexivity.
Qed.

(** A task writes its own slot and no other. *)
Lemma task_writes_other i j image_info_pair (shared : list VMImageInfo) :
  i ≠ j →
  snd (fetch_one_image_info_and_write_to_index j url_downloader image_info_pair shared) !! i
  = shared !! i.
Proof.
  intros Hne. unfold fetch_one_image_info_and_write_to_index.
  destruct (image_info_for_pair url_downloader image_info_pair); cbn; [|reflexivity].
  apply list_lookup_insert_ne. congruence.
Qed.

Lemma task_length j image_info_pair (shared : list VMImageInfo) :
  length (snd (fetch_one_image_info_and_write_to_index j url_downloader image_info_pair shared))
  = length shared.
Proof.
  unfold fetch_one_image_info_and_write_to_index.
  destruct (image_info_for_pair url_downloader image_info_pair); cbn; [|reflexivity].
  apply length_insert.
Qed.

Lemma run_tasks_length order (shared : list VMImageInfo) :
  length (snd (run_tasks tasks order shared)) = length shared.
Proof.
  revert shared. induction order as [|j order IH]; intros shared; cbn; [reflexivity|].
  rewrite tasks_lookup. destruct (pairs !! j) as [pj|]; cbn; [|apply IH].
  rewrite IH. apply task_length.
Qed.

Lemma run_tasks_lookup_other order (shared : list VMImageInfo) i :
  i ∉ order → snd (run_tasks tasks order shared) !! i = shared !! i.
Proof.
  revert shared. induction order as [|j order IH]; intros shared Hnot; cbn; [reflexivity|].
  apply not_elem_of_cons in Hnot as [Hne Hnot].
  rewrite tasks_lookup. destruct (pairs !! j) as [pj|]; cbn; [|now apply IH].
  rewrite IH by assumption. now apply task_writes_other.
Qed.

(** Whatever the order, a task that fetched its record left it in its
    slot. *)
Lemma run_tasks_lookup order (shared : list VMImageInfo) i image_info_pair image :
  i ∈ order → i < length shared →
  pairs !! i = Some image_info_pair →
  image_info_for_pair url_downloader image_info_pair = Ok image →
  snd (run_tasks tasks order shared) !! i = Some image.
Proof.
  intros Hin Hlt Hpair Hfetch. revert shared Hin Hlt.
  induction order as [|j order IH]; intros shared Hin Hlt; [now apply elem_of_nil in Hin|].
  cbn. rewrite tasks_lookup.
  destruct (decide (i ∈ order)) as [Hlater|Hlast].
  - destruct (pairs !! j) as [pj|]; cbn; [|now apply IH].
    apply IH; [assumption|]. now rewrite task_length.
  - apply elem_of_cons in Hin as [->|Hin]; [|contradiction].
    rewrite Hpair. cbn. rewrite run_tasks_lookup_other by assumption.
    unfold fetch_one_image_info_and_write_to_index. rewrite Hfetch. cbn.
    now apply list_lookup_insert_eq.
Qed.

(** Whatever the order, the future of a task holds how the task ended. *)
Lemma future_get_run_tasks order (shared : list VMImageInfo) i image_info_pair :
  i ∈ order → pairs !! i = Some image_info_pair →
  future_get (fst (run_tasks tasks order shared)) i = ending image_info_pair.
Proof.
  intros Hin Hpair. revert shared Hin.
  induction order as [|j order IH]; intros shared Hin; [now apply elem_of_nil in Hin|].
  cbn. rewrite tasks_lookup.
  destruct (decide (j = i)) as [->|Hne].
  - rewrite Hpair. cbn. unfold future_get. cbn. rewrite Nat.eqb_refl. cbn.
    apply task_ending.
  - apply elem_of_cons in Hin as [->|Hin]; [congruence|].
    destruct (pairs !! j) as [pj|]; cbn; [|now apply IH].
    unfold future_get. cbn.
    destruct (Nat.eqb_spec j i) as [|_]; [congruence|].
    now apply IH.
Qed.

(** Joining the futures in launch order rethrows what fetching the
    entries in order meets first. *)
Lemma get_all_fetch_all completed from (entries : list (string * CustomImageInfo)) :
  (∀ k image_info_pair, entries !! k = Some image_info_pair →
     future_get completed (from + k) = ending image_info_pair) →
  get_all completed (seq from (length entries))
  = (_ ← fetch_all url_downloader entries; Ok tt).
Proof.
  revert from. induction entries as [|e entries IH]; intros from Hget; [reflexivity|].
  cbn. specialize (Hget 0 e eq_refl) as Hfirst.
  rewrite Nat.add_0_r in Hfirst. rewrite Hfirst.
  rewrite (IH (S from)).
  - unfold ending.
    destruct (image_info_for_pair url_downloader e); cbn; [|reflexivity].
    destruct (fetch_all url_downloader entries); reflexivity.
  - intros k p Hk. rewrite <- (Hget (S k) p Hk). f_equal. lia.
Qed.

Lemma fetch_all_Forall2 (entries : list (string * CustomImageInfo)) images :
  fetch_all url_downloader entries = Ok images ↔
  Forall2 (fun image_info_pair image =>
             image_info_for_pair url_downloader image_info_pair = Ok image)
          entries images.
Proof.
  revert images. induction entries as [|e entries IH]; intros images; cbn.
  - split; [intros [= <-]; constructor | intros H; inversion H; reflexivity].
  - destruct (image_info_for_pair url_downloader e) as [image|err] eqn:Hfetch; cbn.
    + destruct (fetch_all url_downloader entries) as [rest|err] eqn:Hrest; cbn.
      * split.
        -- intros [= <-]. constructor; [assumption|]. now apply IH.
        -- intros H. inversion H as [|? image' ? rest' Himage Hrest']; subst.
           apply IH in Hrest'. congruence.
      * split; [discriminate|].
        intros H. inversion H as [|? image' ? rest' Himage Hrest']; subst.
        apply IH in Hrest'. discriminate.
    + split; [discriminate|].
      intros H. inversion H; subst. congruence.
Qed.

(** The vector after the tasks, in any completion order, holds the
    records of the build in order. *)
Lemma run_tasks_products schedule images :
  fetch_all url_downloader pairs = Ok images →
  snd (run_tasks tasks (completion_order (length tasks) schedule)
         (replicate (length pairs) VMImageInfo_default))
  = images.
Proof.
  intros Hall. apply fetch_all_Forall2 in Hall.
  pose proof (Forall2_length _ _ _ Hall) as Hlen.
  assert (Htasks : length tasks = length pairs) by apply length_imap.
  apply list_eq. intros i.
  destruct (decide (i < length pairs)) as [Hlt|Hge].
  - destruct (lookup_lt_is_Some_2 pairs i Hlt) as [p Hp].
    destruct (Forall2_lookup_l _ _ _ _ _ Hall Hp) as (image & Himage & Hfetch).
    rewrite Himage. eapply run_tasks_lookup; eauto.
    + apply completion_order_elem. lia.
    + now rewrite length_replicate.
  - rewrite (lookup_ge_None_2 images) by lia.
    apply lookup_ge_None_2. rewrite run_tasks_length, length_replicate. lia.
Qed.

Lemma get_all_completion_order schedule shared :
  get_all (fst (run_tasks tasks (completion_order (length tasks) schedule) shared))
          (seq 0 (length tasks))
  = (_ ← fetch_all url_downloader pairs; Ok tt).
Proof.
  assert (Htasks : length tasks = length pairs) by apply length_imap.
  rewrite Htasks at 2. apply get_all_fetch_all.
  intros k p Hp. cbn. apply future_get_run_tasks; [|assumption].
  apply completion_order_elem. rewrite Htasks.
  apply lookup_lt_is_Some_1. eauto.
Qed.

End Builder.

(** The manifest builder returns what the build in order returns, under
    every completion order of its tasks. *)
Lemma full_image_info_for_build_in_order custom_image_info url_downloader schedule :
  full_image_info_for custom_image_info url_downloader schedule
  = build_in_order custom_image_info url_downloader.
Proof.
  unfold full_image_info_for, build_in_order, QMap.toStdMap, QMap.size.
  cbv zeta. rewrite get_all_completion_order.
  destruct (fetch_all url_downloader custom_image_info) as [images|err] eqn:Hall; cbn;
    [|reflexivity].
  rewrite (run_tasks_products _ _ schedule images Hall). reflexivity.
Qed.

(* ===================================================================== *)
(** ** Failures of the build *)
(* ===================================================================== *)

Lemma image_info_for_pair_throws url_downloader image_info_pair e :
  image_info_for_pair url_downloader image_info_pair = Throw e →
  ∃ what, e = DownloadException what.
Proof.
  unfold image_info_for_pair, base_image_info_for.
  destruct (last_modified url_downloader _) as [t|what]; cbn.
  - destruct (download url_downloader _) as [text|what]; cbn; [discriminate|].
    intros [= <-]. eauto.
  - intros [= <-]. eauto.
Qed.

(** The build in order fails with the failure of the first entry, in the
    order of the filenames, whose fetch fails. *)
Lemma fetch_all_first_failure url_downloader pairs i image_info_pair e :
  pairs !! i = Some image_info_pair →
  image_info_for_pair url_downloader image_info_pair = Throw e →
  ∃ j first e',
    j ≤ i ∧ pairs !! j = Some first ∧
    image_info_for_pair url_downloader first = Throw e' ∧
    fetch_all url_downloader pairs = Throw e'.
Proof.
  revert i. induction pairs as [|p pairs IH]; intros i Hi Hfail; [discriminate|].
  cbn. destruct (image_info_for_pair url_downloader p) as [image|e0] eqn:Hp.
  - destruct i as [|i]; cbn in Hi; [congruence|].
    destruct (IH i Hi Hfail) as (j & first & e' & Hle & Hj & Hfirst & Hall).
    exists (S j), first, e'. cbn. rewrite Hall. repeat split; [lia|assumption..].
  - exists 0, p, e0. cbn. repeat split; [lia|assumption].
Qed.

Lemma fetch_all_throws url_downloader pairs e :
  fetch_all url_downloader pairs = Throw e → ∃ what, e = DownloadException what.
Proof.
  induction pairs as [|p pairs IH]; cbn; [discriminate|].
  destruct (image_info_for_pair url_downloader p) as [image|e0] eqn:Hp; cbn.
  - destruct (fetch_all url_downloader pairs) as [images|e1]; cbn; [discriminate|].
    intros [= <-]. now apply IH.
  - intros [= <-]. eapply image_info_for_pair_throws; eauto.
Qed.

Lemma build_in_order_throws catalog url_downloader e :
  build_in_order catalog url_downloader = Throw e → ∃ what, e = DownloadException what.
Proof.
  unfold build_in_order.
  destruct (fetch_all url_downloader (QMap.toStdMap catalog)) as [images|e0] eqn:Hall; cbn;
    [discriminate|].
  intros [= <-]. eapply fetch_all_throws; eauto.
Qed.

(* ===================================================================== *)
(** ** The refresh cycle and the cache *)
(* ===================================================================== *)

(** What [fetch_manifests] returns and does, case by case. *)
Lemma fetch_manifests_eq schedule self s :
  fetch_manifests schedule self s =
    if is_remote_supported (base self) no_remote then
      match build_in_order (catalog_of self) (url_downloader self) with
      | Ok manifest =>
          (Ok tt,
           {| custom_image_info :=
                match custom_image_info s !! no_remote with
                | Some _ => custom_image_info s
                | None => <[no_remote := manifest]> (custom_image_info s)
                end;
              trace := trace s ++ [MutexLock; CacheEmplace no_remote; MutexUnlock] |})
      | Throw e =>
          match e with
          | DownloadException what => (Ok tt, log_events s [ManifestUpdateFailure what])
          | UnsupportedRemoteException _ => (Ok tt, s)
          | _ => (Throw e, s)
          end
      end
    else (Ok tt, s).
Proof.
  unfold fetch_manifests. run_M.
  destruct (is_remote_supported (base self) no_remote); [|reflexivity].
  rewrite full_image_info_for_build_in_order. fold (catalog_of self).
  destruct (build_in_order (catalog_of self) (url_downloader self)) as [manifest|e] eqn:Hbuild.
  - destruct s as [cache events]. cbn.
    destruct (cache !! no_remote); cbn; rewrite <- !app_assoc; reflexivity.
  - destruct (build_in_order_throws _ _ _ Hbuild) as [what ->]. reflexivity.
Qed.

Lemma clear_eq self s :
  clear self s =
    (Ok tt, {| custom_image_info := ∅;
               trace := trace s ++ [MutexLock; CacheClear; MutexUnlock] |}).
Proof. unfold clear. run_M. rewrite <- !app_assoc. reflexivity. Qed.

(** C2. When the remote is supported and the fetch of some catalog entry
    fails with a download failure, the build of the manifest throws a
    download failure under every completion order (that of the first failing
    entry in the order of the filenames), so no manifest is made of the
    slots written; [fetch_manifests] returns normally, having reported that
    failure through [on_manifest_update_failure] and done nothing else: the
    cache is the mapping it was, the manifest cached for the remote
    included. *)
Theorem fetch_manifests_download_failure schedule self s i image_info_pair what :
  is_remote_supported (base self) no_remote = true →
  QMap.toStdMap (catalog_of self) !! i = Some image_info_pair →
  image_info_for_pair (url_downloader self) image_info_pair = Throw (DownloadException what) →
  ∃ what',
    full_image_info_for (catalog_of self) (url_downloader self) schedule
      = Throw (DownloadException what')
    ∧ fetch_manifests schedule self s =
        (Ok tt, {| custom_image_info := custom_image_info s;
                   trace := trace s ++ [ManifestUpdateFailure what'] |})
    ∧ ∃ j first,
        j ≤ i ∧ QMap.toStdMap (catalog_of self) !! j = Some first
        ∧ image_info_for_pair (url_downloader self) first = Throw (DownloadException what').
Proof.
  intros Hsupported Hentry Hfail.
  destruct (fetch_all_first_failure _ _ _ _ _ Hentry Hfail)
    as (j & first & e' & Hle & Hj & Hfirst & Hall).
  destruct (image_info_for_pair_throws _ _ _ Hfirst) as [what' ->].
  assert (Hbuild : build_in_order (catalog_of self) (url_downloader self)
                   = Throw (DownloadException what')).
  { unfold build_in_order. rewrite Hall. reflexivity. }
  exists what'. split; [|split].
  - now rewrite full_image_info_for_build_in_order.
  - rewrite fetch_manifests_eq, Hsupported, Hbuild. reflexivity.
  - eauto.
Qed.

Lemma fetch_manifests_download_failure_witness :
  ∃ what',
    full_image_info_for (catalog_of (Examples.host Examples.failing_downloader))
      Examples.failing_downloader [3; 0]
      = Throw (DownloadException what')
    ∧ fetch_manifests [3; 0] (Examples.host Examples.failing_downloader) Examples.stale =
        (Ok tt, {| custom_image_info := {[ no_remote := Examples.stale_manifest ]};
                   trace := [] ++ [ManifestUpdateFailure what'] |})
    ∧ ∃ j first,
        j ≤ 2
        ∧ QMap.toStdMap (catalog_of (Examples.host Examples.failing_downloader)) !! j
          = Some first
        ∧ image_info_for_pair Examples.failing_downloader first
          = Throw (DownloadException what').
Proof.
  refine (fetch_manifests_download_failure [3; 0]
            (Examples.host Examples.failing_downloader) Examples.stale 2
            ("ubuntu-core-20-amd64.img.xz",
             {| url_prefix := "https://cdimage.ubuntu.com/ubuntu-core/20/stable/current/";
                aliases := ["core20"];
                os := "Ubuntu"; release := "core-20"; release_string := "Core 20" |})
            "failed to download" _ _ _);
    vm_compute; reflexivity.
Defined.

(** The build never ends with an exception that [fetch_manifests] lets
    through: [fetch_manifests] always returns. *)
Lemma fetch_manifests_returns schedule self s :
  fst (fetch_manifests schedule self s) = Ok tt.
Proof.
  rewrite fetch_manifests_eq.
  destruct (is_remote_supported (base self) no_remote); [|reflexivity].
  destruct (build_in_order (catalog_of self) (url_downloader self)) as [manifest|e] eqn:Hbuild;
    [reflexivity|].
  destruct (build_in_order_throws _ _ _ Hbuild) as [what ->]. reflexivity.
Qed.

(** The cache after [clear] and [fetch_manifests] is made of the host
    alone. *)
Lemma clear_then_refresh_cache schedule self s :
  custom_image_info (snd (clear_then_refresh schedule self s)) =
    if is_remote_supported (base self) no_remote then
      match build_in_order (catalog_of self) (url_downloader self) with
      | Ok manifest => {[ no_remote := manifest ]}
      | Throw _ => ∅
      end
    else ∅.
Proof.
  unfold clear_then_refresh. cbv [mbind M_bind].
  rewrite clear_eq, fetch_manifests_eq.
  destruct (is_remote_supported (base self) no_remote); [|reflexivity].
  destruct (build_in_order (catalog_of self) (url_downloader self)) as [manifest|e] eqn:Hbuild.
  - cbn [fst snd custom_image_info]. rewrite lookup_empty. apply insert_empty.
  - destruct (build_in_order_throws _ _ _ Hbuild) as [what ->]. reflexivity.
Qed.

(** C1, as the code has it.  [fetch_manifests] stores a successfully built
    manifest with [emplace]: it is inserted when the cache has no entry for
    the remote, and a lookup then returns it; an entry the cache already has
    for the remote stays, the new manifest is dropped, and a lookup returns
    the manifest cached before.  After [clear] the cache has no entry, so
    [clear] followed by a successful refresh makes a lookup return the newly
    built manifest. *)
Theorem fetch_manifests_emplaces schedule self s manifest :
  is_remote_supported (base self) no_remote = true →
  full_image_info_for (catalog_of self) (url_downloader self) schedule = Ok manifest →
  (custom_image_info s !! no_remote = None →
     custom_image_info (snd (fetch_manifests schedule self s))
       = <[no_remote := manifest]> (custom_image_info s)
     ∧ fst (manifest_from no_remote self (snd (fetch_manifests schedule self s)))
       = Ok manifest)
  ∧ (∀ cached, custom_image_info s !! no_remote = Some cached →
       custom_image_info (snd (fetch_manifests schedule self s)) = custom_image_info s
       ∧ fst (manifest_from no_remote self (snd (fetch_manifests schedule self s)))
         = Ok cached)
  ∧ fst (manifest_from no_remote self (snd (clear_then_refresh schedule self s)))
    = Ok manifest.
Proof.
  intros Hsupported Hbuild.
  rewrite full_image_info_for_build_in_order in Hbuild.
  split; [|split].
  - intros Habsent.
    rewrite fetch_manifests_eq, Hsupported, Hbuild. cbn. rewrite Habsent.
    split; [reflexivity|].
    rewrite manifest_from_eq, Hsupported. cbn. rewrite lookup_insert_eq. reflexivity.
  - intros cached Hcached.
    rewrite fetch_manifests_eq, Hsupported, Hbuild. cbn. rewrite Hcached.
    split; [reflexivity|].
    rewrite manifest_from_eq, Hsupported. cbn. rewrite Hcached. reflexivity.
  - rewrite manifest_from_eq, Hsupported, clear_then_refresh_cache, Hsupported, Hbuild.
    rewrite lookup_singleton_eq. reflexivity.
Qed.

Lemma fetch_manifests_emplaces_witness :
  ∃ manifest,
    length (products manifest) = 4
    ∧ fst (manifest_from no_remote (Examples.host Examples.downloader)
             (snd (fetch_manifests [2; 1] (Examples.host Examples.downloader) Examples.fresh)))
      = Ok manifest
    ∧ fst (manifest_from no_remote (Examples.host Examples.downloader)
             (snd (clear_then_refresh [2; 1] (Examples.host Examples.downloader) Examples.stale)))
      = Ok manifest.
Proof.
  destruct (full_image_info_for (catalog_of (Examples.host Examples.downloader))
              Examples.downloader [2; 1]) as [manifest|e] eqn:Hbuild;
    [|vm_compute in Hbuild; discriminate].
  exists manifest.
  pose proof (fetch_manifests_emplaces [2; 1] (Examples.host Examples.downloader)
                Examples.fresh manifest eq_refl Hbuild) as (Hfresh & _ & _).
  pose proof (fetch_manifests_emplaces [2; 1] (Examples.host Examples.downloader)
                Examples.stale manifest eq_refl Hbuild) as (_ & _ & Hcleared).
  split; [|split].
  - vm_compute in Hbuild. injection Hbuild as <-. reflexivity.
  - exact (proj2 (Hfresh eq_refl)).
  - exact Hcleared.
Defined.

(** C1, as stated, fails: a cache that already holds a manifest for the
    remote holds the same manifest after a refresh whose build succeeded,
    and the lookup returns that one, not the one just built. *)
Lemma fetch_manifests_keeps_cached_manifest :
  ∃ manifest,
    full_image_info_for (catalog_of (Examples.host Examples.downloader))
      Examples.downloader [] = Ok manifest
    ∧ manifest ≠ Examples.stale_manifest
    ∧ custom_image_info Examples.stale !! no_remote = Some Examples.stale_manifest
    ∧ fst (fetch_manifests [] (Examples.host Examples.downloader) Examples.stale) = Ok tt
    ∧ fst (manifest_from no_remote (Examples.host Examples.downloader)
             (snd (fetch_manifests [] (Examples.host Examples.downloader) Examples.stale)))
      = Ok Examples.stale_manifest.
Proof.
  destruct (full_image_info_for (catalog_of (Examples.host Examples.downloader))
              Examples.downloader []) as [manifest|e] eqn:Hbuild;
    [|vm_compute in Hbuild; discriminate].
  exists manifest. split; [reflexivity|]. split.
  - intros ->. vm_compute in Hbuild. discriminate.
  - repeat split; vm_compute; reflexivity.
Qed.

(** A refresh of an empty cache, as the constructor leaves it, builds the
    same cache as [clear] followed by a refresh. *)
Lemma fetch_manifests_cache_of_empty schedule self events :
  custom_image_info
    (snd (fetch_manifests schedule self {| custom_image_info := ∅; trace := events |})) =
    if is_remote_supported (base self) no_remote then
      match build_in_order (catalog_of self) (url_downloader self) with
      | Ok manifest => {[ no_remote := manifest ]}
      | Throw _ => ∅
      end
    else ∅.
Proof.
  rewrite fetch_manifests_eq.
  destruct (is_remote_supported (base self) no_remote); [|reflexivity].
  destruct (build_in_order (catalog_of self) (url_downloader self)) as [manifest|e] eqn:Hbuild.
  - cbn [fst snd custom_image_info]. rewrite lookup_empty. apply insert_empty.
  - destruct (build_in_order_throws _ _ _ Hbuild) as [what ->]. reflexivity.
Qed.

(** C8. [clear] followed by a refresh returns, and on the same host (the
    same catalog, the same downloader with the same responses) it leaves a
    cache equal by value to the one it replaces, whatever the completion
    orders of the builds: the same remotes with equal manifests, record for
    record.  This holds when the cache replaced was built by [clear] and a
    refresh from any state, and when it was built by the first refresh of
    an empty cache. *)
Theorem clear_then_refresh_idempotent schedule1 schedule2 self s :
  fst (clear_then_refresh schedule1 self s) = Ok tt
  ∧ custom_image_info
      (snd (clear_then_refresh schedule2 self (snd (clear_then_refresh schedule1 self s))))
    = custom_image_info (snd (clear_then_refresh schedule1 self s))
  ∧ custom_image_info
      (snd (clear_then_refresh schedule2 self
              (snd (fetch_manifests schedule1 self
                      {| custom_image_info := ∅; trace := trace s |}))))
    = custom_image_info
        (snd (fetch_manifests schedule1 self {| custom_image_info := ∅; trace := trace s |})).
Proof.
  split; [|split].
  - unfold clear_then_refresh. cbv [mbind M_bind]. rewrite clear_eq.
    pose proof (fetch_manifests_returns schedule1 self
                  {| custom_image_info := ∅;
                     trace := trace s ++ [MutexLock; CacheClear; MutexUnlock] |}) as Hret.
    destruct (fetch_manifests schedule1 self _) as [r s']. cbn in Hret. now subst r.
  - now rewrite !clear_then_refresh_cache.
  - now rewrite clear_then_refresh_cache, fetch_manifests_cache_of_empty.
Qed.

Example clear_then_refresh_twice :
  (fun cache => map vm_id ∘ products <$> cache !! no_remote)
    (custom_image_info
       (snd (clear_then_refresh [1; 3] (Examples.host Examples.downloader)
               (snd (clear_then_refresh [2] (Examples.host Examples.downloader)
                       Examples.stale)))))
  = Some ["aaa16"; "bbb18"; "ccc20"; "ddd22"].
Proof. vm_compute. reflexivity. Qed.

(* ===================================================================== *)
(** ** The order of the catalog *)
(* ===================================================================== *)

Lemma compare_refl s : String.compare s s = Eq.
Proof.
  induction s as [|c s IH]; cbn; [reflexivity|].
  unfold Ascii.compare. now rewrite N.compare_refl.
Qed.

Lemma compare_Lt_Gt a b : String.compare a b = Lt → String.compare b a = Gt.
Proof. intros H. rewrite String.compare_antisym, H. reflexivity. Qed.

Lemma compare_Gt_Lt a b : String.compare a b = Gt → String.compare b a = Lt.
Proof. intros H. rewrite String.compare_antisym, H. reflexivity. Qed.

Lemma compare_Lt_le a b : String.compare a b = Lt → String.le a b.
Proof. unfold String.le, String.leb. now intros ->. Qed.

Lemma compare_Lt_trans a b c :
  String.compare a b = Lt → String.compare b c = Lt → String.compare a c = Lt.
Proof.
  intros Hab Hbc.
  assert (Hac : String.le a c).
  { transitivity b; now apply compare_Lt_le. }
  unfold String.le, String.leb in Hac.
  destruct (String.compare a c) eqn:Hcmp; [|reflexivity|contradiction].
  apply String.compare_eq_iff in Hcmp. subst c.
  apply compare_Lt_Gt in Hab. congruence.
Qed.

Lemma insert_keys_Forall {V} (P : string → Prop) key (value : V) (m : QMap.t V) :
  P key → Forall P (map fst m) → Forall P (map fst (QMap.insert key value m)).
Proof.
  intros Hkey. induction m as [|[k v] m IH]; cbn; intros Hm.
  - now constructor.
  - inversion Hm as [|? ? Hk Hrest]; subst.
    destruct (String.compare key k); cbn; repeat constructor; auto.
Qed.

Lemma insert_wf {V} key (value : V) (m : QMap.t V) :
  QMap.wf m → QMap.wf (QMap.insert key value m).
Proof.
  unfold QMap.wf. induction m as [|[k v] m IH]; cbn; intros Hwf.
  - repeat constructor.
  - inversion Hwf as [|? ? Hsorted Hbelow]; subst.
    destruct (String.compare key k) eqn:Hcmp; cbn.
    + apply String.compare_eq_iff in Hcmp. subst k. now constructor.
    + constructor; [now constructor|].
      constructor; [assumption|].
      eapply Forall_impl; [exact Hbelow|]. intros x Hx. cbn in Hx.
      eapply compare_Lt_trans; eauto.
    + constructor; [now apply IH|].
      apply insert_keys_Forall; [|assumption]. now apply compare_Gt_Lt.
Qed.

(** A [QMap] built from any initializer list has its keys in strictly
    increasing order. *)
Lemma from_list_wf {V} (l : list (string * V)) : QMap.wf (QMap.from_list l).
Proof.
  unfold QMap.from_list.
  assert (Hgen : ∀ m : QMap.t V, QMap.wf m →
            QMap.wf (fold_left (fun m kv => QMap.insert (fst kv) (snd kv) m) l m)).
  { induction l as [|kv l IH]; intros m Hm; cbn; [assumption|].
    apply IH. now apply insert_wf. }
  apply Hgen. constructor.
Qed.

Lemma filter_none {A} (f : A → bool) (l : list A) :
  Forall (fun x => f x = false) l → List.filter f l = [].
Proof.
  induction 1 as [|x l Hx Hl IH]; cbn; [reflexivity|]. now rewrite Hx.
Qed.

(** In a [QMap] the entry at position [i] has exactly [i] entries with a
    smaller key: it is the entry with the [i]-th smallest key, counting
    from 0. *)
Lemma wf_position {V} (m : QMap.t V) i (entry : string * V) :
  QMap.wf m → m !! i = Some entry →
  length (List.filter (fun kv => String.ltb (fst kv) (fst entry)) m) = i.
Proof.
  unfold QMap.wf. revert i. induction m as [|[k v] m IH]; intros i Hwf Hi; [discriminate|].
  inversion Hwf as [|? ? Hsorted Hbelow]; subst.
  destruct i as [|i]; cbn in Hi.
  - injection Hi as <-. cbn. unfold String.ltb at 1. rewrite compare_refl.
    rewrite filter_none; [reflexivity|].
    apply Forall_forall. intros [k' v'] Hin. cbn.
    rewrite Forall_forall in Hbelow.
    assert (Hlt : String.compare k k' = Lt).
    { apply Hbelow, list_elem_of_In, in_map_iff. exists (k', v').
      split; [reflexivity|]. now apply list_elem_of_In. }
    unfold String.ltb. now rewrite (compare_Lt_Gt _ _ Hlt).
  - cbn. assert (Hlt : String.compare k (fst entry) = Lt).
    { rewrite Forall_forall in Hbelow. apply Hbelow, list_elem_of_In, in_map_iff.
      exists entry. split; [reflexivity|].
      apply list_elem_of_In. eapply list_elem_of_lookup_2; eauto. }
    unfold String.ltb at 1. rewrite Hlt. cbn. f_equal. now apply IH.
Qed.

(** If every fetch succeeds, the builder returns a manifest. *)
Lemma full_image_info_for_succeeds custom_image_info url_downloader schedule :
  Forall (fun image_info_pair =>
            ∃ image, image_info_for_pair url_downloader image_info_pair = Ok image)
         (QMap.toStdMap custom_image_info) →
  ∃ manifest, full_image_info_for custom_image_info url_downloader schedule = Ok manifest.
Proof.
  rewrite full_image_info_for_build_in_order. unfold build_in_order.
  generalize (QMap.toStdMap custom_image_info). intros pairs Hall.
  assert (Hfetch : ∃ images, fetch_all url_downloader pairs = Ok images).
  { induction Hall as [|p pairs [image Hp] _ [images IH]]; cbn; [eauto|].
    rewrite Hp, IH. cbn. eauto. }
  destruct Hfetch as [images ->]. cbn. eauto.
Qed.

(** A manifest that is built has its records in the order of the
    filenames, under every completion order. *)
Lemma full_image_info_for_slots entries url_downloader schedule manifest :
  full_image_info_for (QMap.from_list entries) url_downloader schedule = Ok manifest →
  length (products manifest) = QMap.size (QMap.from_list entries)
  ∧ (∀ i image,
       products manifest !! i = Some image →
       ∃ image_info_pair,
         QMap.toStdMap (QMap.from_list entries) !! i = Some image_info_pair
         ∧ image_info_for_pair url_downloader image_info_pair = Ok image
         ∧ length (List.filter
                     (fun kv => String.ltb (fst kv) (fst image_info_pair))
                     (QMap.toStdMap (QMap.from_list entries))) = i)
  ∧ (∀ schedule',
       full_image_info_for (QMap.from_list entries) url_downloader schedule' = Ok manifest).
Proof.
  intros Hbuild. rewrite full_image_info_for_build_in_order in Hbuild.
  split; [|split].
  - unfold build_in_order in Hbuild.
    destruct (fetch_all url_downloader _) as [images|e] eqn:Hall; [|discriminate].
    injection Hbuild as <-. cbn.
    apply fetch_all_Forall2, Forall2_length in Hall. now rewrite <- Hall.
  - intros i image Hi. unfold build_in_order in Hbuild.
    destruct (fetch_all url_downloader _) as [images|e] eqn:Hall; [|discriminate].
    injection Hbuild as <-. cbn in Hi.
    apply fetch_all_Forall2 in Hall.
    destruct (Forall2_lookup_r _ _ _ _ _ Hall Hi) as (image_info_pair & Hpair & Hfetch).
    exists image_info_pair. repeat split; [assumption..|].
    apply wf_position; [apply from_list_wf | assumption].
  - intros schedule'. now rewrite full_image_info_for_build_in_order.
Qed.

(** C9. The builder gives the slots to the catalog entries in the order of
    their filenames, whatever the order in which the tasks complete.  For
    every catalog (a [QMap] built from any initializer list) whose fetches
    all succeed there is one manifest that the builder returns under every
    completion order; it has one record per entry, and the record at index
    [i] is the one fetched for the entry at position [i] of the catalog
    sorted by filename, which is the entry with exactly [i] entries of a
    smaller filename. *)
Theorem full_image_info_for_slots_sorted entries url_downloader :
  Forall (fun image_info_pair =>
            ∃ image, image_info_for_pair url_downloader image_info_pair = Ok image)
         (QMap.toStdMap (QMap.from_list entries)) →
  ∃ manifest,
    (∀ schedule,
       full_image_info_for (QMap.from_list entries) url_downloader schedule = Ok manifest)
    ∧ length (products manifest) = QMap.size (QMap.from_list entries)
    ∧ (∀ i image_info_pair,
         QMap.toStdMap (QMap.from_list entries) !! i = Some image_info_pair →
         length (List.filter
                   (fun kv => String.ltb (fst kv) (fst image_info_pair))
                   (QMap.toStdMap (QMap.from_list entries))) = i
         ∧ ∃ image,
             products manifest !! i = Some image
             ∧ image_info_for_pair url_downloader image_info_pair = Ok image).
Proof.
  intros Hall.
  destruct (full_image_info_for_succeeds _ _ [] Hall) as [manifest Hbuild].
  destruct (full_image_info_for_slots _ _ _ _ Hbuild) as (Hlen & Hslots & Hany).
  exists manifest. split; [exact Hany|]. split; [exact Hlen|].
  intros i image_info_pair Hpair. split.
  - apply wf_position; [apply from_list_wf | assumption].
  - assert (Hlt : i < length (products manifest)).
    { rewrite Hlen. unfold QMap.size. apply lookup_lt_is_Some_1. eauto. }
    destruct (lookup_lt_is_Some_2 _ _ Hlt) as [image Himage].
    destruct (Hslots i image Himage) as (pair' & Hpair' & Hfetch & _).
    exists image. split; [assumption|]. congruence.
Qed.

Lemma full_image_info_for_slots_sorted_witness :
  ∃ manifest,
    (∀ schedule,
       full_image_info_for (QMap.from_list Examples.small_catalog) Examples.downloader
         schedule = Ok manifest)
    ∧ length (products manifest) = 2
    ∧ map vm_release (products manifest) = ["a"; "b"].
Proof.
  assert (Hall : Forall (fun image_info_pair =>
                           ∃ image,
                             image_info_for_pair Examples.downloader image_info_pair
                             = Ok image)
                        (QMap.toStdMap (QMap.from_list Examples.small_catalog))).
  { repeat constructor; eexists; vm_compute; reflexivity. }
  destruct (full_image_info_for_slots_sorted Examples.small_catalog Examples.downloader Hall)
    as (manifest & Hany & Hlen & _).
  exists manifest. split; [exact Hany|]. split; [exact Hlen|].
  specialize (Hany [1; 0]). vm_compute in Hany. injection Hany as <-. reflexivity.
Defined.

Example small_catalog_sorted :
  map fst (QMap.toStdMap (QMap.from_list Examples.small_catalog)) = ["a.img"; "b.img"]
  ∧ map vm_release (products Examples.small_manifest) = ["a"; "b"].
Proof. split; vm_compute; reflexivity. Qed.

(* ===================================================================== *)
(** ** The alias index *)
(* ===================================================================== *)

Lemma map_aliases_lookup p image_aliases (map : gmap string nat) key :
  map_aliases p image_aliases map !! key =
    if bool_decide (key ∈ image_aliases) then Some p else map !! key.
Proof.
  unfold map_aliases. revert map.
  induction image_aliases as [|alias rest IH]; intros map; cbn; [reflexivity|].
  rewrite IH.
  destruct (bool_decide (key ∈ rest)) eqn:Hrest.
  - apply bool_decide_eq_true in Hrest.
    rewrite bool_decide_eq_true_2; [reflexivity|]. now right.
  - apply bool_decide_eq_false in Hrest.
    destruct (decide (alias = key)) as [->|Hne].
    + rewrite lookup_insert_eq, bool_decide_eq_true_2; [reflexivity|]. now left.
    + rewrite lookup_insert_ne by assumption.
      rewrite bool_decide_eq_false_2; [reflexivity|].
      intros Hin. apply elem_of_cons in Hin as [->|Hin]; [congruence|contradiction].
Qed.

(** One step of the scan: the record at [p] takes over the keys it
    carries and leaves the others. *)
Lemma map_image_lookup (map : gmap string nat) p image key :
  map_image map p image !! key =
    if carries image key then Some p else map !! key.
Proof.
  unfold map_image, carries, keys_of.
  destruct (is_default_constructed image); cbn; [reflexivity|].
  rewrite map_aliases_lookup.
  destruct (bool_decide (key ∈ vm_aliases image)) eqn:Halias.
  - apply bool_decide_eq_true in Halias.
    rewrite bool_decide_eq_true_2; [reflexivity|]. now right.
  - apply bool_decide_eq_false in Halias.
    destruct (decide (vm_id image = key)) as [<-|Hne].
    + rewrite lookup_insert_eq, bool_decide_eq_true_2; [reflexivity|]. now left.
    + rewrite lookup_insert_ne by assumption.
      rewrite bool_decide_eq_false_2; [reflexivity|].
      intros Hin. apply elem_of_cons in Hin as [->|Hin]; [congruence|contradiction].
Qed.

Lemma map_images_from_snoc p images image (map : gmap string nat) :
  map_images_from p (images ++ [image]) map
  = map_image (map_images_from p images map) (p + length images) image.
Proof.
  revert p map. induction images as [|x images IH]; intros p map; cbn.
  - now rewrite Nat.add_0_r.
  - rewrite IH. f_equal. lia.
Qed.

Lemma map_aliases_to_vm_info_for_snoc images image :
  map_aliases_to_vm_info_for (images ++ [image])
  = map_image (map_aliases_to_vm_info_for images) (length images) image.
Proof. unfold map_aliases_to_vm_info_for. now rewrite map_images_from_snoc. Qed.

Lemma carries_true image key :
  carries image key = true ↔ is_default_constructed image = false ∧ key ∈ keys_of image.
Proof.
  unfold carries. rewrite andb_true_iff, negb_true_iff, bool_decide_eq_true. tauto.
Qed.

Lemma carries_false image key :
  carries image key = false ↔ is_default_constructed image = true ∨ key ∉ keys_of image.
Proof.
  unfold carries. rewrite andb_false_iff, negb_false_iff, bool_decide_eq_false. tauto.
Qed.

(** A record that carries [key] at the end of the sequence is its last
    holder. *)
Lemma last_with_key_snoc_carried images image key p :
  carries image key = true →
  last_with_key (images ++ [image]) key p ↔ p = length images.
Proof.
  intros Hcarries. split.
  - intros (holder & Hp & Hnot_default & Hkey & Hlast).
    apply lookup_snoc_Some in Hp as [[Hlt _]|[-> _]]; [|reflexivity].
    exfalso.
    destruct (Hlast (length images) image Hlt (list_lookup_middle _ _ _ _ eq_refl))
      as [Hdefault|Hno_key]; apply carries_true in Hcarries as [? ?];
      [congruence|contradiction].
  - intros ->. apply carries_true in Hcarries as [Hnot_default Hkey].
    exists image. split; [now apply list_lookup_middle|].
    repeat split; [assumption..|].
    intros q image' Hlt Hq. apply lookup_lt_Some in Hq.
    rewrite length_app in Hq. cbn in Hq. lia.
Qed.

(** A record that does not carry [key] at the end of the sequence changes
    nothing for [key]. *)
Lemma last_with_key_snoc_other images image key p :
  carries image key = false →
  last_with_key (images ++ [image]) key p ↔ last_with_key images key p.
Proof.
  intros Hcarries. split.
  - intros (holder & Hp & Hnot_default & Hkey & Hlast).
    apply lookup_snoc_Some in Hp as [[Hlt Hp]|[-> <-]].
    + exists holder. repeat split; [assumption..|].
      intros q image' Hpq Hq. apply (Hlast q image' Hpq).
      rewrite lookup_app_l; [assumption|]. now apply lookup_lt_Some in Hq.
    + apply carries_false in Hcarries as [?|?]; [congruence|contradiction].
  - intros (holder & Hp & Hnot_default & Hkey & Hlast).
    exists holder. split.
    { rewrite lookup_app_l; [assumption|]. now apply lookup_lt_Some in Hp. }
    repeat split; [assumption..|].
    intros q image' Hpq Hq.
    apply lookup_snoc_Some in Hq as [[_ Hq]|[_ <-]].
    + now apply (Hlast q image').
    + now apply carries_false.
Qed.

(** C4, as the code has it.  The index built from a sequence of records
    maps a key to a position exactly when that position is the last one
    whose record is not default-constructed and has the key as its
    identifier or among its aliases.  So every key resolves to a record of
    the sequence that carries it; a default-constructed record gives no key
    and keeps its position, the positions of the other records counting it;
    a record is reached under its identifier and under each of its aliases
    unless a record scanned later carries the same string, and a string
    shared by several records, as identifier or alias, resolves to the last
    of them. *)
Theorem alias_index_last_write_wins images key p :
  map_aliases_to_vm_info_for images !! key = Some p ↔ last_with_key images key p.
Proof.
  revert p. induction images as [|image images IH] using rev_ind; intros p.
  - unfold map_aliases_to_vm_info_for. cbn. rewrite lookup_empty. split; [discriminate|].
    intros (holder & Hp & _). discriminate.
  - rewrite map_aliases_to_vm_info_for_snoc, map_image_lookup.
    destruct (carries image key) eqn:Hcarries.
    + rewrite last_with_key_snoc_carried by assumption.
      split; [now intros [= <-] | now intros ->].
    + rewrite last_with_key_snoc_other by assumption. apply IH.
Qed.

(** Every position the index holds is the position of a record that
    carries the key. *)
Lemma index_lookup_carries images key p :
  map_aliases_to_vm_info_for images !! key = Some p →
  ∃ image, images !! p = Some image ∧ carries image key = true.
Proof.
  revert p. induction images as [|image images IH] using rev_ind; intros p.
  - unfold map_aliases_to_vm_info_for. cbn. now rewrite lookup_empty.
  - rewrite map_aliases_to_vm_info_for_snoc, map_image_lookup.
    destruct (carries image key) eqn:Hcarries.
    + intros [= <-]. exists image. split; [now apply list_lookup_middle | assumption].
    + intros Hp. destruct (IH p Hp) as (holder & Hholder & Hkey).
      exists holder. split; [|assumption].
      rewrite lookup_app_l; [assumption|]. now apply lookup_lt_Some in Hholder.
Qed.

(** Every position the index holds is a position of the sequence. *)
Lemma image_records_in_range images key p :
  map_aliases_to_vm_info_for images !! key = Some p → p < length images.
Proof.
  intros Hp. apply index_lookup_carries in Hp as (holder & Hp & _).
  now apply lookup_lt_Some in Hp.
Qed.

(** A record is reached under each of its keys that no later record
    carries, and a lookup under such a key yields that very record. *)
Lemma alias_index_reaches images p image key :
  images !! p = Some image →
  carries image key = true →
  (∀ q image', p < q → images !! q = Some image' → carries image' key = false) →
  map_aliases_to_vm_info_for images !! key = Some p.
Proof.
  revert p. induction images as [|x images IH] using rev_ind; intros p Hp Hkey Hlast;
    [discriminate|].
  rewrite map_aliases_to_vm_info_for_snoc, map_image_lookup.
  apply lookup_snoc_Some in Hp as [[Hlt Hp]|[-> <-]].
  - rewrite (Hlast (length images) x Hlt (list_lookup_middle _ _ _ _ eq_refl)).
    apply IH; [assumption..|].
    intros q image' Hpq Hq. apply (Hlast q image' Hpq).
    rewrite lookup_app_l; [assumption|]. now apply lookup_lt_Some in Hq.
  - now rewrite Hkey.
Qed.

(** The manifest the builder returns owns the whole vector, default
    records included, and its index is the index of that vector. *)
Lemma full_image_info_for_index custom_image_info url_downloader schedule manifest :
  full_image_info_for custom_image_info url_downloader schedule = Ok manifest →
  image_records manifest = map_aliases_to_vm_info_for (products manifest).
Proof.
  rewrite full_image_info_for_build_in_order. unfold build_in_order.
  destruct (fetch_all url_downloader _) as [images|e]; [|discriminate].
  now intros [= <-].
Qed.

Lemma alias_index_last_write_wins_witness :
  map_aliases_to_vm_info_for
    [Examples.record "h1" ["x"; "shared"]; VMImageInfo_default;
     Examples.record "h2" ["shared"]] !! "shared" = Some 2
  ∧ map_aliases_to_vm_info_for
      [Examples.record "h1" ["x"; "shared"]; VMImageInfo_default;
       Examples.record "h2" ["shared"]] !! "x" = Some 0.
Proof.
  split; apply alias_index_last_write_wins.
  - exists (Examples.record "h2" ["shared"]).
    split; [reflexivity|]. split; [reflexivity|].
    split; [apply (bool_decide_unpack _); vm_compute; exact I|].
    intros q image' Hlt Hq. apply lookup_lt_Some in Hq. cbn in Hq. lia.
  - exists (Examples.record "h1" ["x"; "shared"]).
    split; [reflexivity|]. split; [reflexivity|].
    split; [apply (bool_decide_unpack _); vm_compute; exact I|].
    intros [|[|[|q]]] image' Hlt Hq; try lia; cbn in Hq; try discriminate.
    + injection Hq as <-. now left.
    + injection Hq as <-. right.
      apply (bool_decide_unpack _). vm_compute. exact I.
Defined.

(** C4, as stated, fails: when the checksum listings name no artifact, the
    four records of the catalog all have the empty identifier.  The first
    record is not default-constructed and is reached under its alias, but
    its identifier leads to the last record, a different one. *)
Lemma alias_index_shared_identifier :
  ∃ manifest first,
    full_image_info_for (catalog_of (Examples.host Examples.downloader_without_sums))
      Examples.downloader_without_sums [] = Ok manifest
    ∧ products manifest !! 0 = Some first
    ∧ is_default_constructed first = false
    ∧ "core16" ∈ vm_aliases first
    ∧ deref manifest <$> image_records manifest !! "core16" = Some first
    ∧ image_records manifest !! vm_id first = Some 3
    ∧ deref manifest 3 ≠ first.
Proof.
  destruct (full_image_info_for
              (catalog_of (Examples.host Examples.downloader_without_sums))
              Examples.downloader_without_sums []) as [manifest|e] eqn:Hbuild;
    vm_compute in Hbuild; [|discriminate].
  injection Hbuild as <-.
  eexists _, _. split; [reflexivity|]. split; [reflexivity|].
  split; [reflexivity|]. split; [right; left|].
  split; [vm_compute; reflexivity|]. split; [vm_compute; reflexivity|].
  vm_compute. discriminate.
Qed.

(** The scenario of four successful fetches: four records, every declared
    alias and every hash in the index. *)
Example four_fetches_index :
  (fun manifest =>
     (length (products manifest),
      map (fun key => image_records manifest !! key)
          ["core"; "core16"; "core18"; "core20"; "core22";
           "aaa16"; "bbb18"; "ccc20"; "ddd22"; "core24"]))
    <$> custom_image_info Examples.refreshed !! no_remote
  = Some (4, [Some 0; Some 0; Some 1; Some 2; Some 3;
              Some 0; Some 1; Some 2; Some 3; None]).
Proof. vm_compute. reflexivity. Qed.

(* ===================================================================== *)
(** * Further properties of the code *)
(* ===================================================================== *)

(* ===================================================================== *)
(** ** Records and index of a built manifest *)
(* ===================================================================== *)

(** A key that no record carries is not in the index. *)
Lemma index_lookup_None images key :
  map_aliases_to_vm_info_for images !! key = None ↔
  ∀ p image, images !! p = Some image → carries image key = false.
Proof.
  induction images as [|x images IH] using rev_ind.
  - split; [intros _ p image Hp; discriminate | reflexivity].
  - rewrite map_aliases_to_vm_info_for_snoc, map_image_lookup. split.
    + destruct (carries x key) eqn:Hx; [discriminate|].
      intros Hnone p image Hp.
      apply lookup_snoc_Some in Hp as [[_ Hp]|[_ <-]]; [|assumption].
      eapply IH; eauto.
    + intros Hall.
      rewrite (Hall (length images) x (list_lookup_middle _ _ _ _ eq_refl)).
      apply IH. intros p image Hp. apply (Hall p image).
      rewrite lookup_app_l; [assumption|]. now apply lookup_lt_Some in Hp.
Qed.

(** No record after the position the index holds for a key carries the
    key. *)
Lemma index_lookup_last images key p :
  map_aliases_to_vm_info_for images !! key = Some p →
  ∀ q image', p < q → images !! q = Some image' → carries image' key = false.
Proof.
  revert p. induction images as [|x images IH] using rev_ind; intros p.
  - unfold map_aliases_to_vm_info_for. cbn. now rewrite lookup_empty.
  - rewrite map_aliases_to_vm_info_for_snoc, map_image_lookup.
    destruct (carries x key) eqn:Hx.
    + intros [= <-] q image' Hlt Hq. apply lookup_lt_Some in Hq.
      rewrite length_app in Hq. cbn in Hq. lia.
    + intros Hp q image' Hlt Hq.
      apply lookup_snoc_Some in Hq as [[_ Hq]|[_ <-]]; [|assumption].
      eapply IH; eauto.
Qed.

(** A key that a record carries is in the index, at the position of that
    record or of a later one. *)
Lemma index_lookup_carrier images key p image :
  images !! p = Some image → carries image key = true →
  ∃ q, p ≤ q ∧ map_aliases_to_vm_info_for images !! key = Some q.
Proof.
  revert p. induction images as [|x images IH] using rev_ind; intros p Hp Hkey;
    [discriminate|].
  rewrite map_aliases_to_vm_info_for_snoc, map_image_lookup.
  destruct (carries x key) eqn:Hx.
  - exists (length images). split; [|reflexivity].
    apply lookup_lt_Some in Hp. rewrite length_app in Hp. cbn in Hp. lia.
  - apply lookup_snoc_Some in Hp as [[_ Hp]|[_ <-]]; [|congruence].
    now apply (IH p).
Qed.

(** The fields of a fetched record, read off the catalog entry. *)
Lemma image_info_for_pair_fields url_downloader image_info_pair image :
  image_info_for_pair url_downloader image_info_pair = Ok image →
  vm_aliases image = aliases (snd image_info_pair)
  ∧ vm_os image = os (snd image_info_pair)
  ∧ vm_release image = release (snd image_info_pair)
  ∧ vm_release_title image = release_string (snd image_info_pair)
  ∧ vm_image_location image = url_prefix (snd image_info_pair) +:+ fst image_info_pair
  ∧ vm_supported image = true
  ∧ vm_verify image = true.
Proof.
  unfold image_info_for_pair.
  destruct (base_image_info_for _ _ _ _) as [b|e]; cbn; [|discriminate].
  intros [= <-]. cbn. repeat split.
Qed.

Lemma image_info_for_pair_not_default url_downloader image_info_pair image :
  image_info_for_pair url_downloader image_info_pair = Ok image →
  is_default_constructed image = false.
Proof.
  intros Hfetch.
  destruct (image_info_for_pair_fields _ _ _ Hfetch) as (_ & _ & _ & _ & _ & Hsupported & _).
  unfold is_default_constructed. apply bool_decide_eq_false. intros ->. discriminate.
Qed.

(** What a built manifest is made of. *)
Lemma build_in_order_Ok catalog url_downloader manifest :
  build_in_order catalog url_downloader = Ok manifest →
  image_records manifest = map_aliases_to_vm_info_for (products manifest)
  ∧ Forall2 (fun image_info_pair image =>
               image_info_for_pair url_downloader image_info_pair = Ok image)
            (QMap.toStdMap catalog) (products manifest).
Proof.
  unfold build_in_order.
  destruct (fetch_all url_downloader _) as [images|e] eqn:Hall; cbn; [|discriminate].
  intros [= <-]. cbn. split; [reflexivity|]. now apply fetch_all_Forall2.
Qed.

(** X1. In a manifest the builder returns no record is default-constructed
    (every slot was written by its task), so the scan that builds the index
    skips nothing: every record has its identifier and each of its aliases
    among the keys of the index, where the key leads to that record or to a
    later one that has the same key. *)
Theorem built_manifest_records_indexed custom_image_info url_downloader schedule
    manifest p image :
  full_image_info_for custom_image_info url_downloader schedule = Ok manifest →
  products manifest !! p = Some image →
  is_default_constructed image = false
  ∧ ∀ key, key ∈ keys_of image →
      ∃ q image', p ≤ q
        ∧ image_records manifest !! key = Some q
        ∧ products manifest !! q = Some image'
        ∧ key ∈ keys_of image'.
Proof.
  rewrite full_image_info_for_build_in_order. intros Hbuild Hp.
  destruct (build_in_order_Ok _ _ _ Hbuild) as [Hindex Hall].
  destruct (Forall2_lookup_r _ _ _ _ _ Hall Hp) as (image_info_pair & _ & Hfetch).
  pose proof (image_info_for_pair_not_default _ _ _ Hfetch) as Hnot_default.
  split; [assumption|]. intros key Hkey.
  assert (Hcarries : carries image key = true) by now apply carries_true.
  destruct (index_lookup_carrier _ _ _ _ Hp Hcarries) as (q & Hle & Hq).
  destruct (index_lookup_carries _ _ _ Hq) as (image' & Hq' & Hcarries').
  exists q, image'. rewrite Hindex. repeat split; [assumption..|].
  now apply carries_true in Hcarries' as [_ ?].
Qed.

Lemma built_manifest_records_indexed_witness :
  is_default_constructed Examples.core18_record = false
  ∧ ∀ key, key ∈ keys_of Examples.core18_record →
      ∃ q image', 1 ≤ q
        ∧ image_records
            (from_option id Examples.stale_manifest
               (custom_image_info Examples.refreshed !! no_remote)) !! key = Some q
        ∧ products
            (from_option id Examples.stale_manifest
               (custom_image_info Examples.refreshed !! no_remote)) !! q = Some image'
        ∧ key ∈ keys_of image'.
Proof.
  refine (built_manifest_records_indexed
            (catalog_of (Examples.host Examples.downloader)) Examples.downloader []
            _ 1 Examples.core18_record _ _);
    vm_compute; reflexivity.
Defined.

(** X2. A key of a catalog entry's record (one of the entry's aliases, or
    the hash fetched for it) that no later record of the manifest has
    resolves, in the index of the built manifest, to the slot of that entry;
    the record there carries the entry's aliases, OS, release and release
    string, is marked supported, and is located at the entry's URL prefix
    followed by its filename. *)
Theorem built_manifest_resolves_key custom_image_info url_downloader schedule manifest
    i image_info_pair image key :
  full_image_info_for custom_image_info url_downloader schedule = Ok manifest →
  QMap.toStdMap custom_image_info !! i = Some image_info_pair →
  image_info_for_pair url_downloader image_info_pair = Ok image →
  key ∈ keys_of image →
  (∀ j image', i < j → products manifest !! j = Some image' → key ∉ keys_of image') →
  image_records manifest !! key = Some i
  ∧ deref manifest i = image
  ∧ vm_aliases image = aliases (snd image_info_pair)
  ∧ vm_os image = os (snd image_info_pair)
  ∧ vm_release image = release (snd image_info_pair)
  ∧ vm_release_title image = release_string (snd image_info_pair)
  ∧ vm_image_location image = url_prefix (snd image_info_pair) +:+ fst image_info_pair
  ∧ vm_supported image = true.
Proof.
  rewrite full_image_info_for_build_in_order. intros Hbuild Hpair Hfetch Hkey Hlast.
  destruct (build_in_order_Ok _ _ _ Hbuild) as [Hindex Hall].
  destruct (Forall2_lookup_l _ _ _ _ _ Hall Hpair) as (image' & Himage & Hfetch').
  assert (image' = image) as -> by congruence.
  destruct (image_info_for_pair_fields _ _ _ Hfetch) as (Ha & Ho & Hr & Ht & Hl & Hs & _).
  split; [|split; [|repeat split; assumption]].
  - rewrite Hindex. eapply alias_index_reaches; [eassumption| |].
    + apply carries_true. split; [|assumption].
      eapply image_info_for_pair_not_default; eauto.
    + intros q other Hlt Hother. apply carries_false. right. eauto.
  - unfold deref. now apply list_lookup_total_correct.
Qed.

Lemma built_manifest_resolves_key_witness :
  image_records Examples.small_manifest !! "a" = Some 0
  ∧ vm_release (deref Examples.small_manifest 0) = "a"
  ∧ vm_image_location (deref Examples.small_manifest 0) = "http://h/a/a.img".
Proof.
  assert (Hlast : ∀ j image', 0 < j →
            products Examples.small_manifest !! j = Some image' → "a" ∉ keys_of image').
  { intros [|[|j]] image' Hlt Hj; [lia| |discriminate].
    vm_compute in Hj. injection Hj as <-.
    apply (bool_decide_unpack _). vm_compute. exact I. }
  destruct (built_manifest_resolves_key (QMap.from_list Examples.small_catalog)
              Examples.downloader [1; 0] Examples.small_manifest 0
              ("a.img", {| url_prefix := "http://h/a/"; aliases := ["a"]; os := "Ubuntu";
                           release := "a"; release_string := "A" |})
              (deref Examples.small_manifest 0) "a")
    as (Hindex & Hderef & _ & _ & Hrelease & _ & Hlocation & _);
    [vm_compute; reflexivity .. | | exact Hlast |].
  - apply (bool_decide_unpack _). vm_compute. exact I.
  - rewrite Hrelease, Hlocation. split; [exact Hindex|]. split; reflexivity.
Defined.

(* ===================================================================== *)
(** ** What the member functions do to the state *)
(* ===================================================================== *)

Lemma info_for_eq query self s :
  info_for query self s =
    if is_alias_supported (base self) (query_release query) (query_remote_name query) then
      match manifest_from (query_remote_name query) self s with
      | (Ok manifest, s') =>
          (Ok (deref manifest <$> image_records manifest !! query_release query), s')
      | (Throw e, s') => (Throw e, s')
      end
    else (Throw (UnsupportedAliasException (query_release query) (query_remote_name query)), s).
Proof.
  unfold info_for. cbv [mbind mret M_bind M_ret this throw check_alias_is_supported].
  destruct (is_alias_supported _ _ _); [|reflexivity].
  destruct (manifest_from _ self s) as [[manifest|e] s']; [|reflexivity].
  destruct (image_records manifest !! query_release query); reflexivity.
Qed.

Lemma all_images_for_eq remote_name allow_unsupported self s :
  all_images_for remote_name allow_unsupported self s =
    match manifest_from remote_name self s with
    | (Ok manifest, s') =>
        (Ok (List.filter
               (fun product =>
                  alias_verifies_image_is_supported (base self) (vm_aliases product) remote_name)
               (products manifest)), s')
    | (Throw e, s') => (Throw e, s')
    end.
Proof.
  unfold all_images_for. cbv [mbind mret M_bind M_ret this].
  destruct (manifest_from _ self s) as [[manifest|e] s']; reflexivity.
Qed.

Lemma all_info_for_eq query self s :
  all_info_for query self s =
    match info_for query self s with
    | (Ok (Some image), s') => (Ok [(query_remote_name query, image)], s')
    | (Ok None, s') => (Ok [], s')
    | (Throw e, s') => (Throw e, s')
    end.
Proof.
  unfold all_info_for. cbv [mbind mret M_bind M_ret].
  destruct (info_for query self s) as [[[image|]|e] s']; reflexivity.
Qed.

(** The entries [for_each_entry_do_impl] hands to the action, in the order
    in which it does. *)
Lemma fold_left_supported {V} (action : string → VMImageInfo → V → V)
    (supported : VMImageInfo → bool) remote (infos : list VMImageInfo) (v : V) :
  fold_left (fun v info => if supported info then action remote info v else v) infos v
  = fold_left (fun v entry => action (fst entry) (snd entry) v)
      (map (pair remote) (List.filter supported infos)) v.
Proof.
  revert v. induction infos as [|info infos IH]; intros v; cbn; [reflexivity|].
  destruct (supported info); cbn; apply IH.
Qed.

Lemma for_each_entry_do_impl_eq {V} (action : string → VMImageInfo → V → V) (v : V) self s :
  for_each_entry_do_impl action v self s =
    (Ok (fold_left (fun v entry => action (fst entry) (snd entry) v)
           (flat_map
              (fun manifest =>
                 map (pair (fst manifest))
                   (List.filter
                      (fun info =>
                         alias_verifies_image_is_supported (base self)
                           (vm_aliases info) (fst manifest))
                      (products (snd manifest))))
              (map_to_list (custom_image_info s)))
           v),
     log_events s [MutexLock; MutexUnlock]).
Proof.
  unfold for_each_entry_do_impl. run_M. rewrite <- !app_assoc. cbn [app].
  f_equal. f_equal.
  generalize (map_to_list (custom_image_info s)). intros l. revert v.
  induction l as [|manifest l IH]; intros v; cbn; [reflexivity|].
  rewrite fold_left_app, <- fold_left_supported. apply IH.
Qed.

Lemma reads_only_refl s : reads_only s s.
Proof. split; [reflexivity|]. exists []. now rewrite app_nil_r. Qed.

Lemma reads_only_log s added :
  well_locked false added = true → reads_only s (log_events s added).
Proof. intros Hadded. split; [reflexivity|]. now exists added. Qed.

Lemma manifest_from_reads_only remote_name self s :
  reads_only s (snd (manifest_from remote_name self s)).
Proof.
  rewrite manifest_from_eq.
  destruct (is_remote_supported _ _); [|apply reads_only_refl].
  destruct (custom_image_info s !! remote_name); now apply reads_only_log.
Qed.

Lemma info_for_reads_only query self s :
  reads_only s (snd (info_for query self s)).
Proof.
  rewrite info_for_eq.
  destruct (is_alias_supported _ _ _); [|apply reads_only_refl].
  pose proof (manifest_from_reads_only (query_remote_name query) self s) as Hreads.
  destruct (manifest_from _ self s) as [[manifest|e] s']; exact Hreads.
Qed.

Lemma state_after_query_reads_only c self s :
  (∀ schedule, c ≠ FetchManifests schedule) → c ≠ Clear →
  reads_only s (state_after c self s).
Proof.
  intros Hfetch Hclear. destruct c as [q|q|h|r b| | |schedule|]; cbn.
  - apply info_for_reads_only.
  - rewrite all_info_for_eq.
    pose proof (info_for_reads_only q self s) as Hreads.
    destruct (info_for q self s) as [[[image|]|e] s']; exact Hreads.
  - apply reads_only_refl.
  - rewrite all_images_for_eq.
    pose proof (manifest_from_reads_only r self s) as Hreads.
    destruct (manifest_from r self s) as [[manifest|e] s']; exact Hreads.
  - rewrite for_each_entry_do_impl_eq. now apply reads_only_log.
  - apply reads_only_refl.
  - now destruct (Hfetch schedule).
  - now destruct Hclear.
Qed.

Lemma well_locked_app held events events' :
  well_locked held events = true → well_locked false events' = true →
  well_locked held (events ++ events') = true.
Proof.
  revert held. induction events as [|e events IH]; intros held; cbn.
  - destruct held; [discriminate|]. auto.
  - destruct e, held; cbn; try discriminate; intros H1 H2; now apply IH.
Qed.

Lemma fetch_manifests_events schedule self s :
  ∃ added,
    trace (snd (fetch_manifests schedule self s)) = trace s ++ added
    ∧ well_locked false added = true.
Proof.
  rewrite fetch_manifests_eq.
  destruct (is_remote_supported _ _); [|exists []; now rewrite app_nil_r].
  destruct (build_in_order _ _) as [manifest|e] eqn:Hbuild.
  - now exists [MutexLock; CacheEmplace no_remote; MutexUnlock].
  - destruct (build_in_order_throws _ _ _ Hbuild) as [what ->].
    now exists [ManifestUpdateFailure what].
Qed.

Lemma state_after_events c self s :
  ∃ added,
    trace (state_after c self s) = trace s ++ added ∧ well_locked false added = true.
Proof.
  destruct c as [q|q|h|r b| | |schedule|];
    try (apply state_after_query_reads_only; congruence).
  - apply fetch_manifests_events.
  - unfold state_after. rewrite clear_eq. now exists [MutexLock; CacheClear; MutexUnlock].
Qed.

(** X3. Whatever public member functions are called on the host, in
    whatever order and whether they return or throw, the mutex is used
    correctly: it is never locked while held nor unlocked while free, every
    search, insertion and clearing of the cache happens while it is held,
    the failure sink is only called while it is free, and the mutex is free
    when each call ends. *)
Theorem calls_keep_mutex_discipline calls self s :
  well_locked false (trace s) = true →
  well_locked false (trace (state_after_calls calls self s)) = true.
Proof.
  unfold state_after_calls. revert s.
  induction calls as [|c calls IH]; intros s Hs; cbn; [assumption|].
  apply IH. destruct (state_after_events c self s) as (added & -> & Hadded).
  now apply well_locked_app.
Qed.

Lemma calls_keep_mutex_discipline_witness :
  well_locked false
    (trace (state_after_calls Scenarios.busy_calls
              (Examples.host Examples.failing_downloader) Examples.fresh)) = true.
Proof.
  exact (calls_keep_mutex_discipline Scenarios.busy_calls
           (Examples.host Examples.failing_downloader) Examples.fresh eq_refl).
Defined.

(** X4. No query changes the cache: after [info_for], [all_info_for],
    [info_for_full_hash_impl], [all_images_for], [for_each_entry_do_impl]
    and [supported_remotes] the cache is the mapping it was, whether the
    call returned or threw; only [fetch_manifests] and [clear] write it. *)
Theorem queries_leave_cache c self s :
  (∀ schedule, c ≠ FetchManifests schedule) → c ≠ Clear →
  custom_image_info (state_after c self s) = custom_image_info s.
Proof. intros Hfetch Hclear. now apply state_after_query_reads_only. Qed.

Lemma queries_leave_cache_witness :
  custom_image_info
    (state_after (AllImagesFor "snapcraft" false) (Examples.host Examples.downloader)
       Examples.refreshed)
  = custom_image_info Examples.refreshed.
Proof.
  apply (queries_leave_cache (AllImagesFor "snapcraft" false)); discriminate.
Defined.

(* ===================================================================== *)
(** ** The states a host goes through *)
(* ===================================================================== *)

Lemma fetch_manifests_built_cache schedule self s :
  built_cache self s → built_cache self (snd (fetch_manifests schedule self s)).
Proof.
  intros Hbuilt. rewrite fetch_manifests_eq.
  destruct (is_remote_supported _ _); [|assumption].
  destruct (build_in_order _ _) as [manifest|e] eqn:Hbuild.
  - destruct Hbuilt as [Hempty|(cached & Hcached & Hcache)]; right;
      cbn [fst snd custom_image_info].
    + exists manifest. split; [assumption|].
      rewrite Hempty, lookup_empty. apply insert_empty.
    + exists cached. split; [congruence|].
      now rewrite Hcache, lookup_singleton_eq.
  - destruct (build_in_order_throws _ _ _ Hbuild) as [what ->]. exact Hbuilt.
Qed.

Lemma state_after_built_cache c self s :
  built_cache self s → built_cache self (state_after c self s).
Proof.
  intros Hbuilt.
  destruct c as [q|q|h|r b| | |schedule|];
    try (match goal with
         | |- built_cache _ (state_after ?c _ _) =>
             unfold built_cache;
             rewrite (proj1 (state_after_query_reads_only c self s
                               ltac:(intros; discriminate) ltac:(discriminate)));
             exact Hbuilt
         end).
  - now apply fetch_manifests_built_cache.
  - unfold state_after. rewrite clear_eq. now left.
Qed.

(** X5. The cache only ever holds complete manifests.  From a state whose
    cache is empty (as the constructor leaves it) or holds the manifest of
    the host's catalog, every sequence of calls of public member functions
    leads to such a state again: the cache is empty, or it has the one
    entry [no_remote] and that entry is the manifest built of all entries of
    the catalog; no partly fetched manifest and no other remote is ever
    cached. *)
Theorem calls_keep_built_cache calls self s :
  built_cache self s → built_cache self (state_after_calls calls self s).
Proof.
  unfold state_after_calls. revert s.
  induction calls as [|c calls IH]; intros s Hs; cbn; [assumption|].
  apply IH. now apply state_after_built_cache.
Qed.

Lemma calls_keep_built_cache_witness :
  built_cache (Examples.host Examples.failing_downloader)
    (state_after_calls Scenarios.busy_calls
       (Examples.host Examples.failing_downloader) Examples.fresh).
Proof.
  apply (calls_keep_built_cache Scenarios.busy_calls). now left.
Defined.

(** X6. On a host whose cache holds only complete manifests a lookup never
    answers with a wrong record.  When [info_for] returns a record, the
    query names the remote [no_remote], and the record is one of the built
    manifest, is not default-constructed, has the queried release string as
    its identifier or among its aliases, and is the last record of the
    manifest that does.  When [info_for] returns the empty optional, no
    record of the cached manifest has the release string as identifier or
    alias. *)
Theorem info_for_sound query self s :
  built_cache self s →
  match fst (info_for query self s) with
  | Ok (Some image) =>
      query_remote_name query = no_remote
      ∧ ∃ manifest p,
          custom_image_info s !! no_remote = Some manifest
          ∧ build_in_order (catalog_of self) (url_downloader self) = Ok manifest
          ∧ products manifest !! p = Some image
          ∧ is_default_constructed image = false
          ∧ query_release query ∈ keys_of image
          ∧ ∀ q image', p < q → products manifest !! q = Some image' →
              carries image' (query_release query) = false
  | Ok None =>
      ∃ manifest,
        custom_image_info s !! query_remote_name query = Some manifest
        ∧ ∀ image, image ∈ products manifest → carries image (query_release query) = false
  | Throw _ => True
  end.
Proof.
  intros Hbuilt. rewrite info_for_eq.
  destruct (is_alias_supported _ _ _); [|exact I].
  rewrite manifest_from_eq.
  destruct (is_remote_supported _ _); [|exact I].
  destruct (custom_image_info s !! query_remote_name query) as [manifest|] eqn:Hcached;
    [|exact I].
  cbn [fst].
  assert (Hwhich : query_remote_name query = no_remote
                   ∧ build_in_order (catalog_of self) (url_downloader self) = Ok manifest).
  { destruct Hbuilt as [Hempty|(built & Hbuild & Hcache)].
    - rewrite Hempty, lookup_empty in Hcached. discriminate.
    - rewrite Hcache in Hcached.
      apply lookup_singleton_Some in Hcached as [<- <-]. now split. }
  destruct Hwhich as [Hremote Hbuild].
  destruct (build_in_order_Ok _ _ _ Hbuild) as [Hindex _].
  destruct (image_records manifest !! query_release query) as [p|] eqn:Hp; cbn.
  - split; [assumption|]. rewrite Hindex in Hp.
    destruct (index_lookup_carries _ _ _ Hp) as (image & Himage & Hcarries).
    apply carries_true in Hcarries as [Hnot_default Hkey].
    exists manifest, p. rewrite <- Hremote.
    unfold deref. rewrite (list_lookup_total_correct _ _ _ Himage).
    repeat split; [assumption..|].
    now apply index_lookup_last.
  - exists manifest. split; [reflexivity|].
    rewrite Hindex in Hp. intros image Hin.
    apply list_elem_of_lookup_1 in Hin as [p' Hp'].
    eapply index_lookup_None; eauto.
Qed.

Lemma info_for_sound_witness :
  query_remote_name Examples.core18_query = no_remote
  ∧ ∃ manifest p,
      custom_image_info Examples.refreshed !! no_remote = Some manifest
      ∧ build_in_order (catalog_of (Examples.host Examples.downloader))
          Examples.downloader = Ok manifest
      ∧ products manifest !! p = Some Examples.core18_record
      ∧ is_default_constructed Examples.core18_record = false
      ∧ query_release Examples.core18_query ∈ keys_of Examples.core18_record
      ∧ ∀ q image', p < q → products manifest !! q = Some image' →
          carries image' (query_release Examples.core18_query) = false.
Proof.
  assert (Hbuilt : built_cache (Examples.host Examples.downloader) Examples.refreshed).
  { right. eexists. split; vm_compute; reflexivity. }
  pose proof (info_for_sound Examples.core18_query (Examples.host Examples.downloader)
                Examples.refreshed Hbuilt) as Hsound.
  assert (Hfound : fst (info_for Examples.core18_query (Examples.host Examples.downloader)
                          Examples.refreshed) = Ok (Some Examples.core18_record))
    by (vm_compute; reflexivity).
  rewrite Hfound in Hsound. exact Hsound.
Defined.

(* ===================================================================== *)
(** ** Enumeration of the cached entries *)
(* ===================================================================== *)

Section Visited.

Variable self : CustomVMImageHost.

Let supported_of (manifest : string * CustomManifest) : list VMImageInfo :=
  List.filter
    (fun info =>
       alias_verifies_image_is_supported (base self) (vm_aliases info) (fst manifest))
    (products (snd manifest)).

Let visited_of (l : list (string * CustomManifest)) : list (string * VMImageInfo) :=
  flat_map (fun manifest => map (pair (fst manifest)) (supported_of manifest)) l.

Lemma filter_remote_map remote_name k (infos : list VMImageInfo) :
  List.filter (fun entry : string * VMImageInfo => String.eqb (fst entry) remote_name)
    (map (pair k) infos)
  = if String.eqb k remote_name then map (pair k) infos else [].
Proof.
  induction infos as [|info infos IH]; cbn; [now destruct (String.eqb k remote_name)|].
  rewrite IH. now destruct (String.eqb k remote_name).
Qed.

Lemma visited_of_absent remote_name l :
  remote_name ∉ l.*1 →
  List.filter (fun entry => String.eqb (fst entry) remote_name) (visited_of l) = [].
Proof.
  induction l as [|[k m] l IH]; intros Habsent; [reflexivity|].
  cbn in Habsent. apply not_elem_of_cons in Habsent as [Hne Habsent].
  unfold visited_of. cbn. rewrite List.filter_app, filter_remote_map.
  destruct (String.eqb_spec k remote_name) as [->|_]; [congruence|].
  now apply IH.
Qed.

Lemma visited_of_present remote_name manifest l :
  NoDup l.*1 → (remote_name, manifest) ∈ l →
  List.filter (fun entry => String.eqb (fst entry) remote_name) (visited_of l)
  = map (pair remote_name) (supported_of (remote_name, manifest)).
Proof.
  induction l as [|[k m] l IH]; intros Hnodup Hin; [now apply elem_of_nil in Hin|].
  cbn in Hnodup. apply NoDup_cons in Hnodup as [Hfresh Hnodup].
  unfold visited_of. cbn. rewrite List.filter_app, filter_remote_map.
  apply elem_of_cons in Hin as [[= <- <-]|Hin].
  - rewrite String.eqb_refl. fold (visited_of l).
    rewrite visited_of_absent by assumption. apply app_nil_r.
  - destruct (String.eqb_spec k remote_name) as [->|_].
    + exfalso. apply Hfresh. apply list_elem_of_fmap. now exists (remote_name, manifest).
    + now apply IH.
Qed.

(** X7. [for_each_entry_do_impl] takes the mutex once, calls the action
    for a fixed sequence of entries and releases the mutex, leaving the
    cache as it was.  For every remote the cache holds, the entries handed
    over for that remote are exactly the records [all_images_for] selects
    from its manifest, the ones whose aliases verify as supported, in the
    order of the manifest; nothing is handed over for a remote the cache
    does not hold.  Unlike the other queries it does not ask whether the
    remote itself is supported. *)
Theorem for_each_entry_visits_supported_images s :
  ∃ visited,
    (∀ V (action : string → VMImageInfo → V → V) (visitor : V),
       for_each_entry_do_impl action visitor self s =
         (Ok (fold_left (fun v entry => action (fst entry) (snd entry) v) visited visitor),
          log_events s [MutexLock; MutexUnlock]))
    ∧ ∀ remote_name,
        List.filter (fun entry => String.eqb (fst entry) remote_name) visited =
          match custom_image_info s !! remote_name with
          | Some manifest =>
              map (pair remote_name)
                (List.filter
                   (fun product =>
                      alias_verifies_image_is_supported (base self)
                        (vm_aliases product) remote_name)
                   (products manifest))
          | None => []
          end.
Proof.
  exists (visited_of (map_to_list (custom_image_info s))). split.
  - intros V action visitor. apply for_each_entry_do_impl_eq.
  - intros remote_name.
    destruct (custom_image_info s !! remote_name) as [manifest|] eqn:Hcached.
    + apply (visited_of_present remote_name manifest).
      * apply NoDup_fst_map_to_list.
      * now apply elem_of_map_to_list.
    + apply visited_of_absent. intros Hin.
      apply list_elem_of_fmap in Hin as ([k m] & -> & Hin).
      apply elem_of_map_to_list in Hin. cbn in Hcached. congruence.
Qed.

End Visited.

Example for_each_entry_two_remotes :
  (fun r => match fst r with
            | Ok seen => List.filter (fun entry => String.eqb (fst entry) "one") seen
            | Throw _ => []
            end)
    (for_each_entry_do_impl note_entry []
       {| base := {| is_remote_supported := fun _ => false;
                     is_alias_supported := fun _ _ => false;
                     alias_verifies_image_is_supported := fun image_aliases _ =>
                       bool_decide (image_aliases ≠ ["core20"]) |};
          arch := "x86_64"; url_downloader := Scenarios.dead_downloader;
          remotes := [no_remote] |}
       Scenarios.two_remotes)
  = [("one", Examples.record "h1" ["a"])].
Proof. vm_compute. reflexivity. Qed.

(** X8. [all_info_for] answers with at most one pair.  It leaves the state
    [info_for] leaves; it throws exactly what [info_for] throws; a pair it
    returns has the remote name of the query and the record [info_for]
    found; and it returns no pair exactly when [info_for] found none. *)
Theorem all_info_for_at_most_one query self s :
  snd (all_info_for query self s) = snd (info_for query self s)
  ∧ match fst (all_info_for query self s) with
    | Ok found =>
        length found ≤ 1
        ∧ (∀ entry, entry ∈ found →
             fst entry = query_remote_name query
             ∧ fst (info_for query self s) = Ok (Some (snd entry)))
        ∧ (found = [] ↔ fst (info_for query self s) = Ok None)
    | Throw e => fst (info_for query self s) = Throw e
    end.
Proof.
  rewrite all_info_for_eq.
  destruct (info_for query self s) as [[[image|]|e] s']; cbn.
  - split; [reflexivity|]. split; [lia|]. split.
    + intros entry Hin. apply list_elem_of_singleton in Hin as ->. now split.
    + split; discriminate.
  - split; [reflexivity|]. split; [lia|]. split; [|tauto].
    intros entry Hin. now apply elem_of_nil in Hin.
  - now split.
Qed.

(* ===================================================================== *)
(** ** Refreshes that change nothing, forget, or build nothing *)
(* ===================================================================== *)

(** X9. Once the cache holds a manifest for [no_remote], [fetch_manifests]
    never changes the cache again, on any host, whatever the downloader
    returns or fails with: it returns normally and the cache is the mapping
    it was.  Only [clear] makes room for a newer manifest. *)
Theorem fetch_manifests_never_replaces schedule self s cached :
  custom_image_info s !! no_remote = Some cached →
  fst (fetch_manifests schedule self s) = Ok tt
  ∧ custom_image_info (snd (fetch_manifests schedule self s)) = custom_image_info s.
Proof.
  intros Hcached. split; [apply fetch_manifests_returns|].
  rewrite fetch_manifests_eq.
  destruct (is_remote_supported _ _); [|reflexivity].
  destruct (build_in_order _ _) as [manifest|e] eqn:Hbuild.
  - cbn. now rewrite Hcached.
  - destruct (build_in_order_throws _ _ _ Hbuild) as [what ->]. reflexivity.
Qed.

Lemma fetch_manifests_never_replaces_witness :
  fst (fetch_manifests [1] (Examples.host Examples.downloader) Examples.stale) = Ok tt
  ∧ custom_image_info (snd (fetch_manifests [1] (Examples.host Examples.downloader)
                              Examples.stale))
    = custom_image_info Examples.stale.
Proof.
  apply (fetch_manifests_never_replaces [1] (Examples.host Examples.downloader)
           Examples.stale Examples.stale_manifest).
  vm_compute. reflexivity.
Defined.

(** X10. [clear] followed by a refresh in which the fetch of some catalog
    entry fails leaves the cache empty: the manifest cached before is gone,
    and [manifest_from] then throws the runtime error of an unknown remote
    for every supported remote, until a refresh succeeds. *)
Theorem clear_then_failed_refresh_forgets schedule self s i image_info_pair what :
  is_remote_supported (base self) no_remote = true →
  QMap.toStdMap (catalog_of self) !! i = Some image_info_pair →
  image_info_for_pair (url_downloader self) image_info_pair = Throw (DownloadException what) →
  custom_image_info (snd (clear_then_refresh schedule self s)) = ∅
  ∧ ∀ remote_name,
      is_remote_supported (base self) remote_name = true →
      fst (manifest_from remote_name self (snd (clear_then_refresh schedule self s)))
      = Throw (runtime_error (unknown_remote_message remote_name)).
Proof.
  intros Hsupported Hentry Hfail.
  destruct (fetch_all_first_failure _ _ _ _ _ Hentry Hfail)
    as (j & first & e' & _ & _ & _ & Hall).
  assert (Hcache : custom_image_info (snd (clear_then_refresh schedule self s)) = ∅).
  { rewrite clear_then_refresh_cache, Hsupported. unfold build_in_order.
    now rewrite Hall. }
  split; [assumption|]. intros remote_name Hremote.
  rewrite manifest_from_eq, Hremote, Hcache, lookup_empty. reflexivity.
Qed.

Lemma clear_then_failed_refresh_forgets_witness :
  custom_image_info Examples.refreshed !! no_remote ≠ None
  ∧ custom_image_info
      (snd (clear_then_refresh [] (Examples.host Examples.failing_downloader)
              Examples.refreshed)) = ∅.
Proof.
  split; [vm_compute; discriminate|].
  refine (proj1 (clear_then_failed_refresh_forgets []
                   (Examples.host Examples.failing_downloader) Examples.refreshed 2
                   ("ubuntu-core-20-amd64.img.xz",
                    {| url_prefix := "https://cdimage.ubuntu.com/ubuntu-core/20/stable/current/";
                       aliases := ["core20"];
                       os := "Ubuntu"; release := "core-20"; release_string := "Core 20" |})
                   "failed to download" _ _ _));
    vm_compute; reflexivity.
Defined.

Lemma catalog_of_unlisted_arch self :
  arch self ≠ "x86_64" → catalog_of self = [].
Proof.
  intros Harch. unfold catalog_of, QMap.value, multipass_image_info, QMap.from_list.
  cbn [fold_left QMap.insert fst snd QMap.find].
  apply String.eqb_neq in Harch. rewrite Harch. reflexivity.
Qed.

(** X11. On an architecture the catalog does not list (any but [x86_64])
    the catalog is empty, so a refresh of a supported remote downloads
    nothing and cannot fail: with no entry cached it stores a manifest
    without records and without keys.  Afterwards [all_images_for] returns
    the empty list and [info_for] the empty optional for every supported
    release, instead of the error of an unknown remote. *)
Theorem fetch_manifests_unlisted_arch schedule self s :
  arch self ≠ "x86_64" →
  is_remote_supported (base self) no_remote = true →
  custom_image_info s !! no_remote = None →
  fetch_manifests schedule self s =
    (Ok tt,
     {| custom_image_info :=
          <[no_remote := {| products := []; image_records := ∅ |}]> (custom_image_info s);
        trace := trace s ++ [MutexLock; CacheEmplace no_remote; MutexUnlock] |})
  ∧ (∀ allow_unsupported,
       fst (all_images_for no_remote allow_unsupported self
              (snd (fetch_manifests schedule self s))) = Ok [])
  ∧ (∀ release_name,
       is_alias_supported (base self) release_name no_remote = true →
       fst (info_for {| query_release := release_name; query_remote_name := no_remote |}
              self (snd (fetch_manifests schedule self s))) = Ok None).
Proof.
  intros Harch Hsupported Habsent.
  assert (Hfetch : fetch_manifests schedule self s =
            (Ok tt,
             {| custom_image_info :=
                  <[no_remote := {| products := []; image_records := ∅ |}]>
                    (custom_image_info s);
                trace := trace s ++ [MutexLock; CacheEmplace no_remote; MutexUnlock] |})).
  { rewrite fetch_manifests_eq, Hsupported, (catalog_of_unlisted_arch _ Harch).
    cbn. now rewrite Habsent. }
  split; [assumption|]. rewrite Hfetch. cbn [snd]. split.
  - intros allow_unsupported.
    rewrite all_images_for_eq, manifest_from_eq, Hsupported. cbn.
    rewrite lookup_insert_eq. reflexivity.
  - intros release_name Halias.
    rewrite info_for_eq. cbn. rewrite Halias, manifest_from_eq, Hsupported. cbn.
    rewrite lookup_insert_eq. cbn. rewrite lookup_empty. reflexivity.
Qed.

Lemma fetch_manifests_unlisted_arch_witness :
  fetch_manifests [] Scenarios.arm_host Examples.fresh =
    (Ok tt,
     {| custom_image_info := <[no_remote := Scenarios.empty_manifest]> ∅;
        trace := [] ++ [MutexLock; CacheEmplace no_remote; MutexUnlock] |}).
Proof.
  refine (proj1 (fetch_manifests_unlisted_arch [] Scenarios.arm_host Examples.fresh _ _ _)).
  - discriminate.
  - reflexivity.
  - reflexivity.
Defined.

(* ===================================================================== *)
(** ** The hash read from a checksum listing *)
(* ===================================================================== *)

Lemma append_cons c s t : String c s +:+ t = String c (s +:+ t).
Proof. reflexivity. Qed.

Lemma append_nil_r s : s +:+ EmptyString = s.
Proof. induction s as [|c s IH]; [reflexivity|]. now rewrite append_cons, IH. Qed.

Lemma append_assoc s t u : (s +:+ t) +:+ u = s +:+ (t +:+ u).
Proof. induction s as [|c s IH]; [reflexivity|]. now rewrite !append_cons, IH. Qed.

Lemma rev_app_append s t : String.rev_app s t = String.rev s +:+ t.
Proof.
  unfold String.rev. revert t. induction s as [|c s IH]; intros t; [reflexivity|].
  cbn. rewrite (IH (String c t)), (IH (String c EmptyString)), append_assoc.
  reflexivity.
Qed.

Lemma rev_cons c s : String.rev (String c s) = String.rev s +:+ String c EmptyString.
Proof. unfold String.rev at 1. cbn. apply rev_app_append. Qed.

Lemma rev_append s t : String.rev (s +:+ t) = String.rev t +:+ String.rev s.
Proof.
  induction s as [|c s IH]; [now rewrite append_nil_r|].
  now rewrite append_cons, !rev_cons, IH, append_assoc.
Qed.

Lemma rev_involutive s : String.rev (String.rev s) = s.
Proof.
  induction s as [|c s IH]; [reflexivity|].
  now rewrite rev_cons, rev_append, IH.
Qed.

Lemma string_forall_append p s t :
  string_forall p (s +:+ t) = string_forall p s && string_forall p t.
Proof.
  induction s as [|c s IH]; [reflexivity|].
  rewrite append_cons. cbn. now rewrite IH, andb_assoc.
Qed.

Lemma string_forall_rev p s : string_forall p (String.rev s) = string_forall p s.
Proof.
  induction s as [|c s IH]; [reflexivity|].
  rewrite rev_cons, string_forall_append, IH. cbn.
  now rewrite andb_true_r, andb_comm.
Qed.

Lemma string_forall_impl (p q : ascii → bool) s :
  (∀ c, p c = true → q c = true) → string_forall p s = true → string_forall q s = true.
Proof.
  intros Himpl. induction s as [|c s IH]; [reflexivity|]. cbn.
  rewrite !andb_true_iff. intros [Hc Hs]. auto.
Qed.

Lemma dropSpaces_spaces spaces s :
  string_forall QString.isSpace spaces = true →
  QString.dropSpaces (spaces +:+ s) = QString.dropSpaces s.
Proof.
  induction spaces as [|c spaces IH]; [reflexivity|]. cbn.
  rewrite andb_true_iff. intros [Hc Hspaces].
  rewrite append_cons. cbn. rewrite Hc. now apply IH.
Qed.

Lemma dropSpaces_word word s :
  word ≠ EmptyString →
  string_forall (fun c => negb (QString.isSpace c)) word = true →
  QString.dropSpaces (word +:+ s) = word +:+ s.
Proof.
  destruct word as [|c word]; [congruence|]. intros _. cbn.
  rewrite andb_true_iff, negb_true_iff. intros [Hc _].
  rewrite append_cons. cbn. now rewrite Hc.
Qed.

Lemma startsWith_append t u : QString.startsWith (t +:+ u) t = true.
Proof.
  induction t as [|c t IH]; [now destruct u|].
  rewrite append_cons. cbn. now rewrite Ascii.eqb_refl.
Qed.

Lemma before_append sep word rest :
  string_forall (fun c => negb (Ascii.eqb c sep)) word = true →
  QString.before sep (word +:+ String sep rest) = word.
Proof.
  induction word as [|c word IH]; cbn.
  - intros _. change (EmptyString +:+ String sep rest) with (String sep rest).
    cbn. now rewrite Ascii.eqb_refl.
  - rewrite andb_true_iff, negb_true_iff. intros [Hc Hword].
    rewrite append_cons. cbn. rewrite Hc. now rewrite IH.
Qed.

Lemma before_no_sep sep s :
  string_forall (fun c => negb (Ascii.eqb c sep)) (QString.before sep s) = true.
Proof.
  induction s as [|c s IH]; [reflexivity|]. cbn.
  destruct (Ascii.eqb c sep) eqn:Hc; [reflexivity|]. cbn. now rewrite Hc.
Qed.

Lemma rev_not_nil s : s ≠ EmptyString → String.rev s ≠ EmptyString.
Proof.
  intros Hs Hrev. apply Hs. rewrite <- (rev_involutive s), Hrev. reflexivity.
Qed.

(** A line made of a word, a space, anything, the filename and trailing
    whitespace is taken for a line of the file. *)
Lemma listed_line_matches word middle image_file trailing :
  word ≠ EmptyString →
  string_forall (fun c => negb (QString.isSpace c)) word = true →
  image_file ≠ EmptyString →
  string_forall (fun c => negb (QString.isSpace c)) image_file = true →
  string_forall QString.isSpace trailing = true →
  QString.endsWith
    (QString.trimmed (word +:+ String space (middle +:+ image_file +:+ trailing)))
    image_file = true.
Proof.
  intros Hword Hword_chars Hfile Hfile_chars Htrailing.
  unfold QString.endsWith, QString.trimmed.
  rewrite dropSpaces_word by assumption.
  set (pre := word +:+ String space middle).
  assert (Hline : word +:+ String space (middle +:+ image_file +:+ trailing)
                  = pre +:+ image_file +:+ trailing).
  { unfold pre. now rewrite append_assoc, append_cons. }
  rewrite Hline, !rev_append, append_assoc.
  rewrite dropSpaces_spaces by now rewrite string_forall_rev.
  rewrite dropSpaces_word;
    [|now apply rev_not_nil | now rewrite string_forall_rev].
  rewrite rev_involutive. apply startsWith_append.
Qed.

(** X12. The identifier of a fetched record never contains a space: it is
    the part before the first space of the matching line of the checksum
    listing, or empty.  (So a matching line that begins with a space yields
    the empty identifier.) *)
Theorem fetched_identifier_has_no_space url_downloader image_info_pair image :
  image_info_for_pair url_downloader image_info_pair = Ok image →
  string_forall (fun c => negb (is_space_char c)) (vm_id image) = true.
Proof.
  unfold image_info_for_pair, base_image_info_for.
  destruct (last_modified url_downloader _) as [t|what]; cbn; [|discriminate].
  destruct (download url_downloader _) as [text|what]; cbn; [|discriminate].
  intros [= <-]. cbn.
  generalize (QString.split newline text). intros lines.
  induction lines as [|line lines IH]; cbn; [reflexivity|].
  destruct (QString.endsWith _ _); [|exact IH].
  rewrite first_split. apply before_no_sep.
Qed.

Lemma fetched_identifier_has_no_space_witness :
  string_forall (fun c => negb (is_space_char c)) (vm_id Examples.core18_record) = true.
Proof.
  apply (fetched_identifier_has_no_space Examples.downloader
           ("ubuntu-core-18-amd64.img.xz",
            {| url_prefix := "https://cdimage.ubuntu.com/ubuntu-core/18/stable/current/";
               aliases := ["core18"];
               os := "Ubuntu"; release := "core-18"; release_string := "Core 18" |})).
  vm_compute. reflexivity.
Defined.

(** X13. The checksum listing is read back.  If a line of the listing is a
    hash without whitespace, a space, anything more (a second space, a
    [*]), the artifact filename (itself without whitespace) and trailing
    whitespace such as a carriage return, and no earlier line, trimmed, ends
    with the filename, then the loop of [base_image_info_for] yields exactly
    that hash, whatever lines follow. *)
Theorem scan_sha256_sums_reads_listed_hash earlier later hash middle image_file trailing :
  hash ≠ EmptyString →
  string_forall (fun c => negb (QString.isSpace c)) hash = true →
  image_file ≠ EmptyString →
  string_forall (fun c => negb (QString.isSpace c)) image_file = true →
  string_forall QString.isSpace trailing = true →
  Forall (fun line => QString.endsWith (QString.trimmed line) image_file = false) earlier →
  scan_sha256_sums
    (earlier ++ (hash +:+ String space (middle +:+ image_file +:+ trailing)) :: later)
    image_file
  = hash.
Proof.
  intros Hhash Hhash_chars Hfile Hfile_chars Htrailing Hearlier.
  induction Hearlier as [|line earlier Hline _ IH]; cbn.
  - rewrite listed_line_matches by assumption.
    rewrite first_split. apply before_append.
    eapply string_forall_impl; [|exact Hhash_chars].
    intros c. rewrite !negb_true_iff. intros Hc.
    destruct (Ascii.eqb_spec c space) as [->|]; [discriminate|reflexivity].
  - now rewrite Hline.
Qed.

Lemma scan_sha256_sums_reads_listed_hash_witness :
  scan_sha256_sums Scenarios.crlf_listing "disk.img" = "2222".
Proof.
  apply (scan_sha256_sums_reads_listed_hash
           ["1111 *other.img" +:+ String (ascii_of_nat 13) EmptyString] []
           "2222" "*" "disk.img" (String (ascii_of_nat 13) EmptyString));
    try discriminate; try reflexivity.
  repeat constructor.
Defined.

(* ===================================================================== *)
(** ** From the catalog to the answer of a query *)
(* ===================================================================== *)

Lemma fetch_all_succeeds url_downloader pairs :
  Forall (fun image_info_pair =>
            ∃ image, image_info_for_pair url_downloader image_info_pair = Ok image) pairs →
  ∃ images, fetch_all url_downloader pairs = Ok images.
Proof.
  induction 1 as [|p pairs [image Hp] _ [images IH]]; cbn; [eauto|].
  rewrite Hp, IH. cbn. eauto.
Qed.

(** In the manifest of a catalog, a key of an entry's record that the
    records of no later entry have leads to the slot of the entry. *)
Lemma build_in_order_resolves catalog url_downloader manifest i image_info_pair image key :
  build_in_order catalog url_downloader = Ok manifest →
  QMap.toStdMap catalog !! i = Some image_info_pair →
  image_info_for_pair url_downloader image_info_pair = Ok image →
  key ∈ keys_of image →
  (∀ j pair' image', i < j → QMap.toStdMap catalog !! j = Some pair' →
     image_info_for_pair url_downloader pair' = Ok image' → key ∉ keys_of image') →
  image_records manifest !! key = Some i ∧ deref manifest i = image.
Proof.
  intros Hbuild Hpair Hfetch Hkey Hlast.
  destruct (build_in_order_Ok _ _ _ Hbuild) as [Hindex Hall].
  destruct (Forall2_lookup_l _ _ _ _ _ Hall Hpair) as (image' & Himage & Hfetch').
  assert (image' = image) as -> by congruence.
  split.
  - rewrite Hindex. eapply alias_index_reaches; [eassumption| |].
    + apply carries_true. split; [|assumption].
      eapply image_info_for_pair_not_default; eauto.
    + intros q other Hlt Hother. apply carries_false. right.
      destruct (Forall2_lookup_r _ _ _ _ _ Hall Hother) as (pair' & Hpair' & Hother_fetch).
      eauto.
  - unfold deref. now apply list_lookup_total_correct.
Qed.

(** X14. From the catalog to the answer.  On a host whose remote and
    release are supported and whose cache has no entry yet, if every fetch
    of the catalog succeeds then, after [fetch_manifests], [info_for]
    answers a query for a key of a catalog entry's record (one of its
    aliases, or its hash) with exactly the record fetched for that entry,
    provided no later entry of the catalog has a record with the same key;
    [all_info_for] answers with that record paired with the remote. *)
Theorem info_for_after_refresh schedule self s i image_info_pair image release_name :
  is_remote_supported (base self) no_remote = true →
  is_alias_supported (base self) release_name no_remote = true →
  custom_image_info s !! no_remote = None →
  Forall (fun pair' => ∃ image', image_info_for_pair (url_downloader self) pair' = Ok image')
         (QMap.toStdMap (catalog_of self)) →
  QMap.toStdMap (catalog_of self) !! i = Some image_info_pair →
  image_info_for_pair (url_downloader self) image_info_pair = Ok image →
  release_name ∈ keys_of image →
  (∀ j pair' image', i < j → QMap.toStdMap (catalog_of self) !! j = Some pair' →
     image_info_for_pair (url_downloader self) pair' = Ok image' →
     release_name ∉ keys_of image') →
  fst (info_for {| query_release := release_name; query_remote_name := no_remote |} self
         (snd (fetch_manifests schedule self s))) = Ok (Some image)
  ∧ fst (all_info_for {| query_release := release_name; query_remote_name := no_remote |}
           self (snd (fetch_manifests schedule self s))) = Ok [(no_remote, image)].
Proof.
  intros Hremote Halias Habsent Hall Hpair Hfetch Hkey Hlast.
  destruct (fetch_all_succeeds _ _ Hall) as [images Himages].
  assert (Hbuild : ∃ manifest,
            build_in_order (catalog_of self) (url_downloader self) = Ok manifest).
  { unfold build_in_order. rewrite Himages. cbn. eauto. }
  destruct Hbuild as [manifest Hbuild].
  destruct (build_in_order_resolves _ _ _ _ _ _ _ Hbuild Hpair Hfetch Hkey Hlast)
    as [Hindex Hderef].
  assert (Hinfo : fst (info_for {| query_release := release_name;
                                   query_remote_name := no_remote |} self
                         (snd (fetch_manifests schedule self s))) = Ok (Some image)).
  { rewrite fetch_manifests_eq, Hremote, Hbuild. cbn [snd].
    rewrite info_for_eq. cbn [query_release query_remote_name].
    rewrite Halias, manifest_from_eq, Hremote. cbn [custom_image_info].
    rewrite Habsent, lookup_insert_eq, Hindex. cbn. now rewrite Hderef. }
  split; [assumption|].
  rewrite all_info_for_eq.
  destruct (info_for _ self _) as [[[found|]|e] s']; cbn in *; congruence.
Qed.

Lemma info_for_after_refresh_witness :
  fst (info_for {| query_release := "core18"; query_remote_name := no_remote |}
         (Examples.host Examples.downloader)
         (snd (fetch_manifests [3; 2] (Examples.host Examples.downloader) Examples.fresh)))
    = Ok (Some Examples.core18_record)
  ∧ fst (all_info_for {| query_release := "core18"; query_remote_name := no_remote |}
           (Examples.host Examples.downloader)
           (snd (fetch_manifests [3; 2] (Examples.host Examples.downloader) Examples.fresh)))
    = Ok [(no_remote, Examples.core18_record)].
Proof.
  apply (info_for_after_refresh [3; 2] (Examples.host Examples.downloader) Examples.fresh 1
           ("ubuntu-core-18-amd64.img.xz",
            {| url_prefix := "https://cdimage.ubuntu.com/ubuntu-core/18/stable/current/";
               aliases := ["core18"];
               os := "Ubuntu"; release := "core-18"; release_string := "Core 18" |})).
  - reflexivity.
  - reflexivity.
  - reflexivity.
  - repeat constructor; eexists; vm_compute; reflexivity.
  - vm_compute. reflexivity.
  - vm_compute. reflexivity.
  - apply (bool_decide_unpack _). vm_compute. exact I.
  - intros [|[|[|[|j]]]] pair' image' Hlt Hpair' Hfetch'; try lia;
      vm_compute in Hpair'; try discriminate;
      injection Hpair' as <-; vm_compute in Hfetch'; injection Hfetch' as <-;
      apply (bool_decide_unpack _); vm_compute; exact I.
Defined.

(* ===================================================================== *)
(** ** Remotes of the cache and keys of the index *)
(* ===================================================================== *)

(** A property of states that every call keeps is kept by every sequence
    of calls. *)
Lemma state_after_calls_keep (P : state → Prop) self :
  (∀ c s, P s → P (state_after c self s)) →
  ∀ calls s, P s → P (state_after_calls calls self s).
Proof.
  intros Hstep calls. unfold state_after_calls.
  induction calls as [|c calls IH]; intros s Hs; cbn; [assumption|].
  apply IH, Hstep, Hs.
Qed.

(** X15. A host made by the constructor names one remote,
    [supported_remotes] returning the list of [no_remote] alone after any
    calls, and the cache never holds an entry for a remote that is not in
    that list, whatever is called and whatever the downloader does. *)
Theorem cached_remotes_are_supported_remotes common arch_name downloader calls remote_name :
  let self := fst (CustomVMImageHost_new common arch_name downloader) in
  let s := state_after_calls calls self
             (snd (CustomVMImageHost_new common arch_name downloader)) in
  fst (supported_remotes self s) = Ok [no_remote]
  ∧ (is_Some (custom_image_info s !! remote_name) → remote_name ∈ [no_remote]).
Proof.
  intros self s. split; [reflexivity|].
  assert (Hbuilt : built_cache self s).
  { apply (state_after_calls_keep (built_cache self)).
    - intros c s0. apply state_after_built_cache.
    - now left. }
  intros [manifest Hcached].
  destruct Hbuilt as [Hempty|(built & _ & Hcache)].
  - rewrite Hempty, lookup_empty in Hcached. discriminate.
  - rewrite Hcache in Hcached.
    apply lookup_singleton_Some in Hcached as [<- _]. now left.
Qed.

Lemma cached_remotes_are_supported_remotes_witness :
  fst (supported_remotes (Examples.host Examples.downloader)
         (state_after_calls Scenarios.busy_calls (Examples.host Examples.downloader)
            Examples.fresh)) = Ok [no_remote]
  ∧ no_remote ∈ [no_remote].
Proof.
  destruct (cached_remotes_are_supported_remotes Examples.common "x86_64"
              Examples.downloader Scenarios.busy_calls no_remote) as [Hremotes Hcached].
  split; [exact Hremotes|].
  apply Hcached. eexists. vm_compute. reflexivity.
Defined.

(** X16. The keys of the index built from any sequence of records,
    default-constructed ones included, are exactly the identifiers and
    aliases of its records that are not default-constructed: a string is a
    key if and only if some such record has it as identifier or alias. *)
Theorem alias_index_keys images key :
  is_Some (map_aliases_to_vm_info_for images !! key) ↔
  ∃ p image,
    images !! p = Some image
    ∧ is_default_constructed image = false
    ∧ key ∈ keys_of image.
Proof.
  split.
  - intros [p Hp]. destruct (index_lookup_carries _ _ _ Hp) as (image & Himage & Hcarries).
    apply carries_true in Hcarries. exists p, image. tauto.
  - intros (p & image & Himage & Hnot_default & Hkey).
    destruct (index_lookup_carrier images key p image Himage) as (q & _ & Hq); [|eauto].
    now apply carries_true.
Qed.
